(* ===================================================================== *)
(* use-merged-ref.ts: assignRef and mergeRefs                             *)
(*                                                                       *)
(* A shallow embedding of the two functions of                           *)
(*   src/react18/src/use-merged-ref.ts                                   *)
(* as state-and-exception passing functions, with the cleanupMap of one  *)
(* mergeRefs instance as a gmap keyed by the identity of the ref.        *)
(* useMergedRef (lines 43-45) is useCallback(mergeRefs(...refs), refs):  *)
(* it memoises the function mergeRefs returns and adds nothing to what   *)
(* that function does, so it has no definition of its own here.          *)
(* ===================================================================== *)

From stdpp Require Import base option list countable gmap.

(* --------------------------------------------------------------------- *)
(* Ref handles: PossibleRef<T> = RefCallback<T> | RefObject<T> | null     *)
(*                               | undefined                              *)
(* --------------------------------------------------------------------- *)

(* A function or an object is known by its identity (an address); the two
   primitive values undefined and null are their own identity.  A JS Map
   compares keys with SameValueZero, which on these values is exactly this
   equality, and accepts undefined and null as keys. *)
Inductive PossibleRef : Type :=
  | RefUndefined
  | RefNull
  | RefFn (f : nat)
  | RefObj (o : nat).

#[global] Instance PossibleRef_eq_dec : EqDecision PossibleRef.
Proof. solve_decision. Defined.

Definition PossibleRef_code (r : PossibleRef) : (unit + unit) + (nat + nat) :=
  match r with
  | RefUndefined => inl (inl tt)
  | RefNull => inl (inr tt)
  | RefFn f => inr (inl f)
  | RefObj o => inr (inr o)
  end.

Definition PossibleRef_decode (c : (unit + unit) + (nat + nat)) : PossibleRef :=
  match c with
  | inl (inl _) => RefUndefined
  | inl (inr _) => RefNull
  | inr (inl f) => RefFn f
  | inr (inr o) => RefObj o
  end.

#[global] Instance PossibleRef_countable : Countable PossibleRef.
Proof.
  apply (inj_countable' PossibleRef_code PossibleRef_decode).
  by intros [].
Defined.

#[global] Instance RefFn_inj : Inj (=) (=) RefFn.
Proof. by intros f g [= ->]. Qed.

#[global] Instance RefObj_inj : Inj (=) (=) RefObj.
Proof. by intros o p [= ->]. Qed.

(* The JS tests that assignRef performs on a ref. *)
Inductive TypeofTag : Type := TyUndefined | TyObject | TyFunction.

Definition typeof (r : PossibleRef) : TypeofTag :=
  match r with
  | RefUndefined => TyUndefined
  | RefNull => TyObject
  | RefFn _ => TyFunction
  | RefObj _ => TyObject
  end.

(* "current" in ref, for a ref that is an object and not null.  Every
   object of type RefObject<T> has the field. *)
Definition has_current (r : PossibleRef) : bool :=
  match r with RefObj _ => true | _ => false end.

(* A ref that is neither a callback nor a cell: undefined or null. *)
Definition is_absent (r : PossibleRef) : bool :=
  match r with RefUndefined | RefNull => true | _ => false end.

(* --------------------------------------------------------------------- *)
(* Outcomes of a call                                                     *)
(* --------------------------------------------------------------------- *)

Inductive Result (Exn A : Type) : Type :=
  | Ok (a : A)
  | Throw (e : Exn).
Arguments Ok {Exn A} a.
Arguments Throw {Exn A} e.

(* What a ref callback returns, what cleanupMap stores and what Map.get
   gives.  The declared type is RefCleanup<T> | null, but a JS function
   returns what it returns: undefined (no return statement), null, a
   function, or any other value, as node => seen.push(node) returns a
   number and el => (x = el) returns the element.  Of a value that is
   neither undefined, null nor a function the code asks one thing only,
   whether it is truthy (0, NaN, the empty string and false are not;
   every object, every other number and string are), so that is what
   JOther keeps of it.  Cleanup is the type of the function values. *)
Inductive JsVal (Cleanup : Type) : Type :=
  | JUndefined
  | JNull
  | JFun (c : Cleanup)
  | JOther (is_truthy : bool).
Arguments JUndefined {Cleanup}.
Arguments JNull {Cleanup}.
Arguments JFun {Cleanup} c.
Arguments JOther {Cleanup} is_truthy.

(* The heap the callers' code lives in: the `current` field of every ref
   object (of type T | null), and the callbacks' own state U. *)
Record World (T U : Type) : Type := mkWorld {
  cells : gmap nat (option T);
  user : U
}.
Arguments mkWorld {T U} cells user.
Arguments cells {T U} w.
Arguments user {T U} w.

(* The bodies of the callers' functions: a ref callback receives
   T | null, a cleanup function receives nothing; either may change the
   heap, and either returns or throws a value of type Exn.  They act on
   the heap only: cleanupMap and the refs array belong to the closure
   mergeRefs returns, and the callers' functions are taken not to call
   that closure themselves while it runs.  type_error is the TypeError
   the JS engine throws when a value that is not a function is called. *)
Record Host (T U Exn Cleanup : Type) : Type := mkHost {
  fn_body : nat → option T → World T U → Result Exn (JsVal Cleanup) * World T U;
  cleanup_body : Cleanup → World T U → Result Exn unit * World T U;
  type_error : Exn
}.
Arguments mkHost {T U Exn Cleanup} fn_body cleanup_body type_error.
Arguments fn_body {T U Exn Cleanup} h f arg w.
Arguments cleanup_body {T U Exn Cleanup} h c w.
Arguments type_error {T U Exn Cleanup} h.

(* What an observer of the callers' functions sees: each call, with its
   argument and its outcome, in the order the calls happen. *)
Inductive Event (T Exn Cleanup : Type) : Type :=
  | EvCall (f : nat) (arg : option T) (out : Result Exn (JsVal Cleanup))
  | EvCleanup (c : Cleanup) (out : Result Exn unit).
Arguments EvCall {T Exn Cleanup} f arg out.
Arguments EvCleanup {T Exn Cleanup} c out.

(* The state of a program with one mergeRefs instance: the instance's
   cleanupMap (line 22; only the returned function reaches it), the heap,
   and the calls observed so far. *)
Record State (T U Exn Cleanup : Type) : Type := mkState {
  cleanupMap : gmap PossibleRef (JsVal Cleanup);
  world : World T U;
  trace : list (Event T Exn Cleanup)
}.
Arguments mkState {T U Exn Cleanup} cleanupMap world trace.
Arguments cleanupMap {T U Exn Cleanup} s.
Arguments world {T U Exn Cleanup} s.
Arguments trace {T U Exn Cleanup} s.

(* a ?? b *)
Definition nullish {Cleanup} (a b : JsVal Cleanup) : JsVal Cleanup :=
  match a with
  | JUndefined | JNull => b
  | JFun _ | JOther _ => a
  end.

(* if (a) *)
Definition truthy {Cleanup} (a : JsVal Cleanup) : bool :=
  match a with
  | JUndefined | JNull => false
  | JFun _ => true
  | JOther is_truthy => is_truthy
  end.

Section Host.

Context {T U Exn Cleanup : Type} (h : Host T U Exn Cleanup).

(* Computations that read and write the state and may throw; the state at
   the throw is kept, as a JS exception undoes nothing. *)
Definition M (A : Type) : Type :=
  State T U Exn Cleanup → Result Exn A * State T U Exn Cleanup.

Definition ret {A} (a : A) : M A := λ s, (Ok a, s).

Definition bind {A B} (m : M A) (k : A → M B) : M B :=
  λ s, match m s with
       | (Ok a, s') => k a s'
       | (Throw e, s') => (Throw e, s')
       end.

Notation "'let!' x ':=' m 'in' k" := (bind m (λ x, k))
  (at level 10, x name, m at level 100, k at level 200).
Notation "m '>>' k" := (bind m (λ _, k))
  (at level 65, right associativity).

(* ref(value) *)
Definition call_fn (f : nat) (value : option T) : M (JsVal Cleanup) :=
  λ s, let '(out, w) := fn_body h f value (world s) in
       (out, mkState (cleanupMap s) w (trace s ++ [EvCall f value out])).

(* The call of the function c, what it returns dropped *)
Definition call_cleanup (c : Cleanup) : M unit :=
  λ s, let '(out, w) := cleanup_body h c (world s) in
       (out, mkState (cleanupMap s) w (trace s ++ [EvCleanup c out])).

(* throw e *)
Definition throw {A} (e : Exn) : M A := λ s, (Throw e, s).

(* cleanup(): the call of a function; of anything else, a TypeError *)
Definition call_value (cleanup : JsVal Cleanup) : M unit :=
  match cleanup with
  | JFun c => call_cleanup c
  | JUndefined | JNull | JOther _ => throw (type_error h)
  end.

(* ref.current = value *)
Definition set_current (o : nat) (value : option T) : M unit :=
  λ s, (Ok tt,
        mkState (cleanupMap s)
                (mkWorld (<[o := value]> (cells (world s))) (user (world s)))
                (trace s)).

(* cleanupMap.get(ref) *)
Definition map_get (ref : PossibleRef) : M (JsVal Cleanup) :=
  λ s, (Ok (default JUndefined (cleanupMap s !! ref)), s).

(* cleanupMap.set(ref, v) *)
Definition map_set (ref : PossibleRef) (v : JsVal Cleanup) : M unit :=
  λ s, (Ok tt, mkState (<[ref := v]> (cleanupMap s)) (world s) (trace s)).

(* cleanupMap.clear() *)
Definition map_clear : M unit :=
  λ s, (Ok tt, mkState ∅ (world s) (trace s)).

(* refs.forEach(cb): cb on each element, first to last; what cb returns
   is dropped. *)
Fixpoint forEach {A} (cb : A → M unit) (l : list A) : M unit :=
  match l with
  | [] => ret tt
  | x :: l' => cb x >> forEach cb l'
  end.

(* --------------------------------------------------------------------- *)
(* assignRef (lines 7-13)                                                 *)
(* --------------------------------------------------------------------- *)

Definition assignRef (ref : PossibleRef) (value : option T) : M (JsVal Cleanup) :=
  match typeof ref with
  | TyFunction =>
      match ref with
      | RefFn f => call_fn f value
      | _ => ret JUndefined
      end
  | TyObject =>
      if bool_decide (ref ≠ RefNull) && has_current ref then
        match ref with
        | RefObj o => set_current o value >> ret JUndefined
        | _ => ret JUndefined
        end
      else ret JUndefined
  | TyUndefined => ret JUndefined
  end.

(* --------------------------------------------------------------------- *)
(* mergeRefs (lines 15-41)                                                *)
(* --------------------------------------------------------------------- *)

(* line 22: const cleanupMap = new Map() *)
Definition new_cleanupMap : gmap PossibleRef (JsVal Cleanup) := ∅.

(* lines 26-28: the function given to forEach when node !== null *)
Definition attach_step (node : option T) (ref : PossibleRef) : M unit :=
  let! r := assignRef ref node in
  map_set ref (nullish r JNull).

(* lines 30-37: the function given to forEach when node === null *)
Definition detach_step (ref : PossibleRef) : M unit :=
  let! cleanup := map_get ref in
  if truthy cleanup then call_value cleanup
  else assignRef ref None >> ret tt.

(* lines 24-40: the function mergeRefs(...refs) returns, applied to node *)
Definition mergeRefs (refs : list PossibleRef) (node : option T) : M unit :=
  match node with
  | Some _ => forEach (attach_step node) refs
  | None => forEach detach_step refs >> map_clear
  end.

(* --------------------------------------------------------------------- *)
(* Vocabulary of the properties                                           *)
(* --------------------------------------------------------------------- *)

(* A cleanup function that returns whatever the heap is. *)
Definition cleanup_returns (c : Cleanup) : Prop :=
  ∀ w, ∃ w', cleanup_body h c w = (Ok tt, w').

(* A callback that, given a value that is not null, returns a cleanup
   function (one that itself returns when called). *)
Definition returns_cleanup (f : nat) : Prop :=
  ∀ v w, ∃ c w',
    fn_body h f (Some v) w = (Ok (JFun c), w') ∧ cleanup_returns c.

(* A callback that returns, and never returns a value that is truthy:
   neither a function nor anything else line 32 would take for one. *)
Definition no_cleanup (f : nat) : Prop :=
  ∀ arg w, ∃ r w', fn_body h f arg w = (Ok r, w') ∧ truthy r = false.

(* No callback of the list and no cleanup function writes the cell o. *)
Definition leaves_cell (refs : list PossibleRef) (o : nat) : Prop :=
  (∀ f arg w, RefFn f ∈ refs →
     cells (fn_body h f arg w).2 !! o = cells w !! o) ∧
  (∀ c w, cells (cleanup_body h c w).2 !! o = cells w !! o).

(* A new instance in a given heap. *)
Definition fresh (w : World T U) (tr : list (Event T Exn Cleanup)) :
    State T U Exn Cleanup :=
  mkState new_cleanupMap w tr.

(* The registry never maps anything but a callback to a function. *)
Definition only_callbacks_have_cleanup
    (m : gmap PossibleRef (JsVal Cleanup)) : Prop :=
  ∀ r c, m !! r = Some (JFun c) → ∃ f, r = RefFn f.

(* The registry maps anything but a callback to null. *)
Definition only_callbacks_have_values
    (m : gmap PossibleRef (JsVal Cleanup)) : Prop :=
  ∀ r x, m !! r = Some x → x ≠ JNull → ∃ f, r = RefFn f.

(* The states one instance over refs can be in: new, then after any call
   of the merged ref (returning or throwing), and after any change of the
   heap by code that runs between two calls. *)
Inductive reachable (refs : list PossibleRef) :
    State T U Exn Cleanup → Prop :=
  | reach_new w tr : reachable refs (fresh w tr)
  | reach_call s node : reachable refs s →
      reachable refs (mergeRefs refs node s).2
  | reach_heap s w : reachable refs s →
      reachable refs (mkState (cleanupMap s) w (trace s)).

End Host.

Notation "'let!' x ':=' m 'in' k" := (bind m (λ x, k))
  (at level 10, x name, m at level 100, k at level 200).
Notation "m '>>' k" := (bind m (λ _, k))
  (at level 65, right associativity).

(* --------------------------------------------------------------------- *)
(* A host to run the definitions on                                       *)
(* --------------------------------------------------------------------- *)

Module Sample.

(* Values and exceptions are numbers; the callbacks' state counts the
   closures created so far, and a cleanup function is known by a number.
     callbacks 0 and 4 return a new closure at each call, as
                (node) => { ...; return () => { ... } } does: the
                closures they create get the numbers 1, 2, 3, ...;
     callback 2 throws 7;
     callback 3 returns the closure 0, which throws 9 when called;
     callback 7 returns a value that is truthy and not a function, as
                node => seen.push(node) and el => (x = el) do;
     callback 8 returns a value that is not truthy and not null or
                undefined, as node => 0 does;
     every other callback returns undefined;
     every closure but 0 returns;
     the TypeError of the engine is 13. *)
Definition sample_fn (f : nat) (arg : option nat) (w : World nat nat) :
    Result nat (JsVal nat) * World nat nat :=
  match f with
  | 0 | 4 => (Ok (JFun (S (user w))), mkWorld (cells w) (S (user w)))
  | 2 => (Throw 7, w)
  | 3 => (Ok (JFun 0), w)
  | 7 => (Ok (JOther true), w)
  | 8 => (Ok (JOther false), w)
  | _ => (Ok JUndefined, w)
  end.

Definition sample_cleanup (c : nat) (w : World nat nat) :
    Result nat unit * World nat nat :=
  match c with
  | 0 => (Throw 9, w)
  | S _ => (Ok tt, w)
  end.

Definition host : Host nat nat nat nat :=
  mkHost sample_fn sample_cleanup 13.

Definition w0 : World nat nat := mkWorld ∅ 0.

Definition s0 : State nat nat nat nat := fresh w0 [].

(* A ref object, a callback that returns a cleanup function, one that
   does not, and an unset ref. *)
Definition refs4 : list PossibleRef :=
  [RefObj 4; RefFn 0; RefFn 1; RefUndefined].

Definition attached : State nat nat nat nat :=
  (mergeRefs host refs4 (Some 5) s0).2.

Definition detached : State nat nat nat nat :=
  (mergeRefs host refs4 None attached).2.

(* A detach that throws: the closure callback 3 returned throws. *)
Definition refs_throwing : list PossibleRef := [RefFn 0; RefFn 3].

Definition stale : State nat nat nat nat :=
  (mergeRefs host refs_throwing None
     (mergeRefs host refs_throwing (Some 5) s0).2).2.

(* Callbacks whose results are a function, a value that is truthy and not
   a function, and one that is neither truthy nor null nor undefined. *)
Definition refs_values : list PossibleRef := [RefFn 0; RefFn 7; RefFn 8].

Definition attached_values : State nat nat nat nat :=
  (mergeRefs host refs_values (Some 5) s0).2.

End Sample.

(* The callbacks among refs, in order. *)
Definition callbacks_of (refs : list PossibleRef) : list nat :=
  omap (λ r, match r with RefFn f => Some f | _ => None end) refs.

(* The function mergeRefs gives to forEach for a given node. *)
Definition step {T U Exn Cleanup} (h : Host T U Exn Cleanup)
    (node : option T) : PossibleRef → M unit :=
  match node with
  | Some _ => attach_step h node
  | None => detach_step h
  end.

(* One attach and detach cycle over the callbacks fs in which every
   occurrence of a callback has a cleanup function of its own: the attach
   calls each occurrence once, the i-th returning the function cs !! i, and
   the detach, in whatever heap it finds, calls exactly these functions,
   each once. *)
Definition cleanup_per_occurrence {T U Exn Cleanup}
    (h : Host T U Exn Cleanup) (fs : list nat) (v : T)
    (s : State T U Exn Cleanup) : Prop :=
  ∃ cs s1,
    mergeRefs h (RefFn <$> fs) (Some v) s = (Ok tt, s1) ∧
    length cs = length fs ∧
    trace s1 =
      trace s ++ zip_with (λ f c, EvCall f (Some v) (Ok (JFun c))) fs cs ∧
    ∀ w, ∃ s2,
      mergeRefs h (RefFn <$> fs) None (mkState (cleanupMap s1) w (trace s1))
        = (Ok tt, s2) ∧
      trace s2 = trace s1 ++ ((λ c, EvCleanup c (Ok tt)) <$> cs).

(* No state of an instance over refs has undefined or null as a key of
   cleanupMap. *)
Definition absent_never_keys {T U Exn Cleanup}
    (h : Host T U Exn Cleanup) (refs : list PossibleRef) : Prop :=
  ∀ s, reachable h refs s →
    ∀ ref, is_absent ref = true → cleanupMap s !! ref = None.

(* The refs that are a callback or a ref object. *)
Definition present_refs (refs : list PossibleRef) : list PossibleRef :=
  filter (λ ref, is_absent ref = false) refs.

(* Two states with the same heap and the same observed calls, whose
   registries agree on every key that is a callback or a ref object. *)
Definition same_but_absent {T U Exn Cleanup}
    (s s' : State T U Exn Cleanup) : Prop :=
  world s = world s' ∧ trace s = trace s' ∧
  ∀ ref, is_absent ref = false → cleanupMap s !! ref = cleanupMap s' !! ref.

(* A logged call that returned, and a logged call that threw e. *)
Definition event_returned {T Exn Cleanup} (ev : Event T Exn Cleanup) : Prop :=
  match ev with
  | EvCall _ _ (Ok _) | EvCleanup _ (Ok _) => True
  | _ => False
  end.

Definition event_threw {T Exn Cleanup} (e : Exn)
    (ev : Event T Exn Cleanup) : Prop :=
  match ev with
  | EvCall _ _ (Throw e') | EvCleanup _ (Throw e') => e' = e
  | _ => False
  end.

(* How a run that made the calls evs ended: all of them returned, or the
   last one threw what the run throws. *)
Definition calls_end_as {T Exn Cleanup A} (out : Result Exn A)
    (evs : list (Event T Exn Cleanup)) : Prop :=
  match out with
  | Ok _ => Forall event_returned evs
  | Throw e =>
      ∃ evs' ev, evs = evs' ++ [ev] ∧ Forall event_returned evs' ∧
                 event_threw e ev
  end.

(* The call a detach makes for the callback f, by what cleanupMap holds
   under f: the stored function; for a stored value that is truthy and
   not a function, no call at all; otherwise f(null). *)
Definition detach_call {T Exn Cleanup}
    (m : gmap PossibleRef (JsVal Cleanup)) (f : nat)
    (ev : Event T Exn Cleanup) : Prop :=
  match m !! RefFn f with
  | Some (JFun c) => ∃ out, ev = EvCleanup c out
  | Some (JOther true) => False
  | _ => ∃ out, ev = EvCall f None out
  end.

(* How a detach over the callbacks l ended, having made the calls evs for
   the callbacks fs: it returned, with a call for every callback and all
   calls returned; or it threw what the last call threw; or all calls
   returned and it threw the TypeError of line 33 at the next callback,
   under which cleanupMap holds a value that is truthy and not a
   function. *)
Definition detach_ends_as {T U Exn Cleanup} (h : Host T U Exn Cleanup)
    (m : gmap PossibleRef (JsVal Cleanup)) (l : list nat)
    (out : Result Exn unit) (fs : list nat)
    (evs : list (Event T Exn Cleanup)) : Prop :=
  match out with
  | Ok _ => fs = l ∧ Forall event_returned evs
  | Throw e =>
      (∃ evs' ev, evs = evs' ++ [ev] ∧ Forall event_returned evs' ∧
                  event_threw e ev) ∨
      (Forall event_returned evs ∧ e = type_error h ∧
       ∃ g, fs ++ [g] `prefix_of` l ∧ m !! RefFn g = Some (JOther true))
  end.

(* The function an attach leaves stored under the callback f, when the
   i-th callback of fs returned the function cs !! i: the one returned at
   the last position of f in fs. *)
Fixpoint last_capture {Cleanup} (fs : list nat) (cs : list Cleanup)
    (f : nat) : option Cleanup :=
  match fs, cs with
  | g :: fs', c :: cs' =>
      match last_capture fs' cs' f with
      | Some c' => Some c'
      | None => if decide (g = f) then Some c else None
      end
  | _, _ => None
  end.

(* --------------------------------------------------------------------- *)
(* A merged ref given as one of the refs of another mergeRefs             *)
(* --------------------------------------------------------------------- *)

(* The function mergeRefs(...inner) returns is itself a ref callback: it
   has no return statement, so it returns undefined, and its cleanupMap is
   its own.  For the instance that has it among its refs it is one more of
   the callers' functions, and what it closes over is part of the callers'
   state: the inner cleanupMap, next to the callers' own state.  The calls
   of the callers' functions, whichever instance makes them, are recorded
   in one list kept there too. *)
Record Nested (T U Exn Cleanup : Type) : Type := mkNested {
  inner_cleanupMap : gmap PossibleRef (JsVal Cleanup);
  calls : list (Event T Exn Cleanup);
  outer_user : U
}.
Arguments mkNested {T U Exn Cleanup} inner_cleanupMap calls outer_user.
Arguments inner_cleanupMap {T U Exn Cleanup} n.
Arguments calls {T U Exn Cleanup} n.
Arguments outer_user {T U Exn Cleanup} n.

Section NestedHost.

Context {T U Exn Cleanup : Type} (h : Host T U Exn Cleanup).

(* The state as the inner instance and the callers' functions have it. *)
Definition inner_state (w : World T (Nested T U Exn Cleanup)) :
    State T U Exn Cleanup :=
  mkState (inner_cleanupMap (user w))
    (mkWorld (cells w) (outer_user (user w))) (calls (user w)).

Definition from_inner (s : State T U Exn Cleanup) :
    World T (Nested T U Exn Cleanup) :=
  mkWorld (cells (world s))
    (mkNested (cleanupMap s) (trace s) (user (world s))).

(* The callback m is the function mergeRefs(...inner) returned; any other
   callback is the callers' own. *)
Definition nested_fn (m : nat) (inner : list PossibleRef) (f : nat)
    (arg : option T) (w : World T (Nested T U Exn Cleanup)) :
    Result Exn (JsVal Cleanup) * World T (Nested T U Exn Cleanup) :=
  if decide (f = m) then
    let '(out, s1) := mergeRefs h inner arg (inner_state w) in
    (match out with Ok _ => Ok JUndefined | Throw e => Throw e end,
     from_inner s1)
  else
    let '(out, s1) := call_fn h f arg (inner_state w) in
    (out, from_inner s1).

Definition nested_cleanup (c : Cleanup)
    (w : World T (Nested T U Exn Cleanup)) :
    Result Exn unit * World T (Nested T U Exn Cleanup) :=
  let '(out, s1) := call_cleanup h c (inner_state w) in
  (out, from_inner s1).

Definition nested_host (m : nat) (inner : list PossibleRef) :
    Host T (Nested T U Exn Cleanup) Exn Cleanup :=
  mkHost (nested_fn m inner) nested_cleanup (type_error h).

(* The outer instance as the callers' functions see the heap: its own
   cleanupMap, over the heap and the calls that all instances share. *)
Definition outer_view (s' : State T (Nested T U Exn Cleanup) Exn Cleanup) :
    State T U Exn Cleanup :=
  mkState (cleanupMap s') (world (inner_state (world s')))
    (trace (inner_state (world s'))).

(* A state s' of an instance over rest and the merged ref m of inner, and
   a state s of one instance over all of these refs: the same heap and the
   same calls so far, and the same entries, each ref of inner having in
   the inner cleanupMap the entry it has in s, each ref of rest having in
   the outer cleanupMap the entry it has in s; the outer cleanupMap holds
   no function under m. *)
Definition nested_as_flat (m : nat) (inner rest : list PossibleRef)
    (s' : State T (Nested T U Exn Cleanup) Exn Cleanup)
    (s : State T U Exn Cleanup) : Prop :=
  world (inner_state (world s')) = world s ∧
  trace (inner_state (world s')) = trace s ∧
  (∀ ref, ref ∈ inner →
     inner_cleanupMap (user (world s')) !! ref = cleanupMap s !! ref) ∧
  (∀ ref, ref ∈ rest → cleanupMap s' !! ref = cleanupMap s !! ref) ∧
  truthy (default JUndefined (cleanupMap s' !! RefFn m)) = false.

End NestedHost.

Module SampleNested.

(* The callback 10 is the merged ref of a callback and a ref object; it is
   given to an outer instance between two callbacks. *)
Definition merged : nat := 10.

Definition inner : list PossibleRef := [RefFn 0; RefObj 4].

Definition host : Host nat (Nested nat nat nat nat) nat nat :=
  nested_host Sample.host merged inner.

Definition t0 : State nat (Nested nat nat nat nat) nat nat :=
  fresh (from_inner Sample.s0) [].

End SampleNested.

(* ===================================================================== *)
(* Facts                                                                  *)
(* ===================================================================== *)

Section Sequencing.

Context {T U Exn Cleanup : Type}.
Implicit Types s : State T U Exn Cleanup.

Lemma bind_ok_inv {A B} (m : @M T U Exn Cleanup A) (k : A → M B) s b s' :
  bind m k s = (Ok b, s') →
  ∃ a s1, m s = (Ok a, s1) ∧ k a s1 = (Ok b, s').
Proof.
  unfold bind. destruct (m s) as [[a|e] s1]; [eauto | discriminate].
Qed.

Lemma bind_throw_inv {A B} (m : @M T U Exn Cleanup A) (k : A → M B) s e s' :
  bind m k s = (Throw e, s') →
  m s = (Throw e, s') ∨ ∃ a s1, m s = (Ok a, s1) ∧ k a s1 = (Throw e, s').
Proof.
  unfold bind. destruct (m s) as [[a|e1] s1]; [eauto | intros [= -> ->]; auto].
Qed.

Lemma bind_ok_run {A B} (m : @M T U Exn Cleanup A) (k : A → M B) s a s1 :
  m s = (Ok a, s1) → bind m k s = k a s1.
Proof. unfold bind. by intros ->. Qed.

Lemma bind_throw_run {A B} (m : @M T U Exn Cleanup A) (k : A → M B) s e s1 :
  m s = (Throw e, s1) → bind m k s = (Throw e, s1).
Proof. unfold bind. by intros ->. Qed.

Lemma forEach_app {A} (cb : A → @M T U Exn Cleanup unit) l1 l2 s :
  forEach cb (l1 ++ l2) s = (forEach cb l1 >> forEach cb l2) s.
Proof.
  revert s. induction l1 as [|x l1 IH]; intros s; simpl; [done|].
  unfold bind. destruct (cb x s) as [[[]|e] s1]; [|done].
  by rewrite IH.
Qed.

(* A forEach that throws, throws at one element, after the elements
   before it returned. *)
Lemma forEach_throw_inv {A} (cb : A → @M T U Exn Cleanup unit) l s e s' :
  forEach cb l s = (Throw e, s') →
  ∃ pre x post s1,
    l = pre ++ x :: post ∧ forEach cb pre s = (Ok tt, s1) ∧
    cb x s1 = (Throw e, s').
Proof.
  revert s. induction l as [|x l IH]; intros s; simpl; [discriminate|].
  intros Hrun. apply bind_throw_inv in Hrun as [Hx | ([] & s1 & Hx & Hrest)].
  - by exists [], x, l, s.
  - destruct (IH _ Hrest) as (pre & y & post & s2 & -> & Hpre & Hy).
    exists (x :: pre), y, post, s2. split_and!; [done | | done].
    simpl. by rewrite (bind_ok_run _ _ _ _ _ Hx).
Qed.

Lemma forEach_throw_at {A} (cb : A → @M T U Exn Cleanup unit)
    pre x post s s1 e s' :
  forEach cb pre s = (Ok tt, s1) → cb x s1 = (Throw e, s') →
  forEach cb (pre ++ x :: post) s = (Throw e, s').
Proof.
  intros Hpre Hx. rewrite forEach_app, (bind_ok_run _ _ _ _ _ Hpre). simpl.
  by rewrite (bind_throw_run _ _ _ _ _ Hx).
Qed.

End Sequencing.

Section Facts.

Context {T U Exn Cleanup : Type} (h : Host T U Exn Cleanup).
Implicit Types s : State T U Exn Cleanup.
Implicit Types ref : PossibleRef.

(* --------------------------------------------------------------------- *)
(* assignRef                                                              *)
(* --------------------------------------------------------------------- *)

Lemma assignRef_fn f value s :
  assignRef h (RefFn f) value s =
    ((fn_body h f value (world s)).1,
     mkState (cleanupMap s) (fn_body h f value (world s)).2
       (trace s ++ [EvCall f value (fn_body h f value (world s)).1])).
Proof.
  unfold assignRef, call_fn. simpl. by destruct (fn_body h f value (world s)).
Qed.

Lemma assignRef_obj o value s :
  assignRef h (RefObj o) value s =
    (Ok JUndefined,
     mkState (cleanupMap s)
       (mkWorld (<[o := value]> (cells (world s))) (user (world s)))
       (trace s)).
Proof. reflexivity. Qed.

Lemma assignRef_absent ref value s :
  is_absent ref = true → assignRef h ref value s = (Ok JUndefined, s).
Proof. by destruct ref. Qed.

(** C4: assignRef does one of three things, by the shape of the ref.
    An absent ref (undefined or null): the state is unchanged and the
    result is undefined.  A callback: it is called once with the value,
    and its outcome (what it returns, a function or not, or what it
    throws) and the heap it leaves are the outcome and the heap of
    assignRef.  A ref object: its current field becomes the value, nothing
    else changes, and the result is undefined. *)
Theorem assignRef_contract :
  (∀ ref value s,
     is_absent ref = true → assignRef h ref value s = (Ok JUndefined, s)) ∧
  (∀ f value s out w,
     fn_body h f value (world s) = (out, w) →
     assignRef h (RefFn f) value s =
       (out, mkState (cleanupMap s) w (trace s ++ [EvCall f value out]))) ∧
  (∀ o value s,
     assignRef h (RefObj o) value s =
       (Ok JUndefined,
        mkState (cleanupMap s)
          (mkWorld (<[o := value]> (cells (world s))) (user (world s)))
          (trace s))).
Proof.
  split_and!.
  - apply assignRef_absent.
  - intros f value s out w Hbody. rewrite assignRef_fn. by rewrite Hbody.
  - apply assignRef_obj.
Qed.

Lemma assignRef_cleanupMap ref value s :
  cleanupMap (assignRef h ref value s).2 = cleanupMap s.
Proof.
  destruct ref; try done. by rewrite assignRef_fn.
Qed.

Lemma assignRef_throw_inv ref value s e s' :
  assignRef h ref value s = (Throw e, s') →
  ∃ f, ref = RefFn f ∧
       fn_body h f value (world s) = (Throw e, world s') ∧
       s' = mkState (cleanupMap s) (world s')
              (trace s ++ [EvCall f value (Throw e)]).
Proof.
  destruct ref as [| |f|o]; try discriminate.
  rewrite assignRef_fn.
  destruct (fn_body h f value (world s)) as [out w] eqn:Hbody.
  simpl. intros Heq. injection Heq as -> <-. by exists f.
Qed.

(* --------------------------------------------------------------------- *)
(* The two functions given to forEach                                     *)
(* --------------------------------------------------------------------- *)

Lemma attach_step_ok node ref s r s1 :
  assignRef h ref node s = (Ok r, s1) →
  attach_step h node ref s =
    (Ok tt, mkState (<[ref := nullish r JNull]> (cleanupMap s))
              (world s1) (trace s1)).
Proof.
  intros Hassign. unfold attach_step.
  rewrite (bind_ok_run _ _ _ _ _ Hassign). unfold map_set.
  pose proof (assignRef_cleanupMap ref node s) as Hmap.
  rewrite Hassign in Hmap. simpl in Hmap. by rewrite Hmap.
Qed.

Lemma attach_step_throw node ref s e s1 :
  assignRef h ref node s = (Throw e, s1) →
  attach_step h node ref s = (Throw e, s1).
Proof. intros Hassign. unfold attach_step. by apply bind_throw_run. Qed.

Lemma attach_step_ok_inv node ref s s' :
  attach_step h node ref s = (Ok tt, s') →
  ∃ r s1, assignRef h ref node s = (Ok r, s1) ∧
          s' = mkState (<[ref := nullish r JNull]> (cleanupMap s))
                 (world s1) (trace s1).
Proof.
  intros Hstep. destruct (assignRef h ref node s) as [[r|e] s1] eqn:Hassign.
  - rewrite (attach_step_ok _ _ _ _ _ Hassign) in Hstep.
    injection Hstep as <-. eauto.
  - by rewrite (attach_step_throw _ _ _ _ _ Hassign) in Hstep.
Qed.

Lemma detach_step_cleanup ref s c :
  cleanupMap s !! ref = Some (JFun c) →
  detach_step h ref s = call_cleanup h c s.
Proof.
  intros Hget. unfold detach_step, bind, map_get. by rewrite Hget.
Qed.

Lemma detach_step_fallback ref s :
  truthy (default JUndefined (cleanupMap s !! ref)) = false →
  detach_step h ref s = (assignRef h ref None >> ret tt) s.
Proof.
  intros Hfalsy. unfold detach_step, map_get. unfold bind at 1.
  by rewrite Hfalsy.
Qed.

(* line 33 with a stored value that is truthy and not a function *)
Lemma detach_step_not_callable ref s :
  cleanupMap s !! ref = Some (JOther true) →
  detach_step h ref s = (Throw (type_error h), s).
Proof.
  intros Hget. unfold detach_step, bind, map_get. by rewrite Hget.
Qed.

Lemma call_cleanup_run c s :
  call_cleanup h c s =
    ((cleanup_body h c (world s)).1,
     mkState (cleanupMap s) (cleanup_body h c (world s)).2
       (trace s ++ [EvCleanup c (cleanup_body h c (world s)).1])).
Proof. unfold call_cleanup. by destruct (cleanup_body h c (world s)). Qed.

Lemma detach_step_cleanupMap ref s :
  cleanupMap (detach_step h ref s).2 = cleanupMap s.
Proof.
  destruct (cleanupMap s !! ref) as [[| |c|[]]|] eqn:Hget.
  1,2,5,6: rewrite detach_step_fallback by (by rewrite Hget);
    unfold bind; pose proof (assignRef_cleanupMap ref None s) as Hmap;
    by destruct (assignRef h ref None s) as [[?|?] ?].
  - rewrite (detach_step_cleanup _ _ _ Hget), call_cleanup_run. done.
  - by rewrite (detach_step_not_callable _ _ Hget).
Qed.

Lemma forEach_detach_cleanupMap refs s :
  cleanupMap (forEach (detach_step h) refs s).2 = cleanupMap s.
Proof.
  revert s. induction refs as [|ref refs IH]; intros s; simpl; [done|].
  unfold bind. pose proof (detach_step_cleanupMap ref s) as Hstep.
  destruct (detach_step h ref s) as [[[]|e] s1]; simpl in *; [|done].
  by rewrite IH.
Qed.

Lemma detach_step_throw_inv ref s e s' :
  detach_step h ref s = (Throw e, s') →
  (∃ f, ref = RefFn f ∧
        truthy (default JUndefined (cleanupMap s !! ref)) = false ∧
        fn_body h f None (world s) = (Throw e, world s') ∧
        s' = mkState (cleanupMap s) (world s')
               (trace s ++ [EvCall f None (Throw e)])) ∨
  (∃ c, cleanupMap s !! ref = Some (JFun c) ∧
        cleanup_body h c (world s) = (Throw e, world s') ∧
        s' = mkState (cleanupMap s) (world s')
               (trace s ++ [EvCleanup c (Throw e)])) ∨
  (cleanupMap s !! ref = Some (JOther true) ∧ e = type_error h ∧ s' = s).
Proof.
  intros Hstep.
  destruct (truthy (default JUndefined (cleanupMap s !! ref))) eqn:Htruthy.
  - right.
    destruct (cleanupMap s !! ref) as [[| |c|[]]|] eqn:Hget; try done.
    + left.
      rewrite (detach_step_cleanup _ _ _ Hget), call_cleanup_run in Hstep.
      destruct (cleanup_body h c (world s)) as [out w] eqn:Hbody.
      simpl in Hstep. injection Hstep as -> <-. by exists c.
    + right. rewrite (detach_step_not_callable _ _ Hget) in Hstep.
      by injection Hstep as <- <-.
  - left. rewrite (detach_step_fallback _ _ Htruthy) in Hstep.
    apply bind_throw_inv in Hstep as [Hassign | (r & s1 & _ & Hret)];
      [|discriminate].
    apply assignRef_throw_inv in Hassign as (f & -> & Hbody & ->).
    by exists f.
Qed.

(** X11: the function mergeRefs returns throws e and leaves the state s'
    exactly when refs splits into pre, one ref and post such that the
    steps for pre all returned and then one of three things happened for
    that ref: its callback, called with the node, threw e; or, on detach,
    the function stored for it threw e; or, on detach, the value stored for
    it is truthy and not a function, and e is the TypeError of the call on
    line 33.  In the first two cases e is what the callers' function threw,
    untranslated, and s' is the state at that throw, the call in the trace;
    in the third no call was made and s' is the state the steps for pre
    left.  In all three nothing was done for post and cleanupMap was
    neither written for that ref nor cleared. *)
Theorem errors_propagate refs node s e s' :
  mergeRefs h refs node s = (Throw e, s') ↔
  ∃ pre ref post s1,
    refs = pre ++ ref :: post ∧
    forEach (step h node) pre s = (Ok tt, s1) ∧
    ((∃ f, ref = RefFn f ∧
           (node = None →
            truthy (default JUndefined (cleanupMap s1 !! ref)) = false) ∧
           fn_body h f node (world s1) = (Throw e, world s') ∧
           s' = mkState (cleanupMap s1) (world s')
                  (trace s1 ++ [EvCall f node (Throw e)])) ∨
     (∃ c, node = None ∧
           cleanupMap s1 !! ref = Some (JFun c) ∧
           cleanup_body h c (world s1) = (Throw e, world s') ∧
           s' = mkState (cleanupMap s1) (world s')
                  (trace s1 ++ [EvCleanup c (Throw e)])) ∨
     (node = None ∧ cleanupMap s1 !! ref = Some (JOther true) ∧
      e = type_error h ∧ s' = s1)).
Proof.
  split.
  - destruct node as [v|]; simpl; intros Hrun.
    + apply forEach_throw_inv in Hrun
        as (pre & ref & post & s1 & -> & Hpre & Hstep).
      exists pre, ref, post, s1. split_and!; [done..|]. left.
      apply bind_throw_inv in Hstep as [Hassign | (r & s2 & _ & Hset)];
        [|discriminate].
      apply assignRef_throw_inv in Hassign as (f & -> & Hbody & ->).
      by exists f.
    + apply bind_throw_inv in Hrun as [Hrun | ([] & s2 & _ & Hclear)];
        [|discriminate].
      apply forEach_throw_inv in Hrun
        as (pre & ref & post & s1 & -> & Hpre & Hstep).
      exists pre, ref, post, s1. split_and!; [done..|].
      apply detach_step_throw_inv in Hstep
        as [(f & -> & Hfalsy & Hbody & ->)
           | [(c & Hget & Hbody & ->) | (Hget & -> & ->)]].
      * left. by exists f.
      * right. left. by exists c.
      * right. by right.
  - intros (pre & ref & post & s1 & -> & Hpre & Hthrow).
    assert (step h node ref s1 = (Throw e, s')) as Hstep.
    { destruct Hthrow as [(f & -> & Hfalsy & Hbody & ->)
                         | [(c & -> & Hget & Hbody & ->)
                           | (-> & Hget & -> & ->)]].
      - destruct node as [v|]; simpl.
        + apply attach_step_throw. rewrite assignRef_fn. by rewrite Hbody.
        + rewrite detach_step_fallback by auto.
          apply bind_throw_run. rewrite assignRef_fn. by rewrite Hbody.
      - simpl. rewrite (detach_step_cleanup _ _ _ Hget), call_cleanup_run.
        by rewrite Hbody.
      - simpl. by apply detach_step_not_callable. }
    destruct node as [v|]; simpl in *.
    + by apply forEach_throw_at with s1.
    + apply bind_throw_run. by apply forEach_throw_at with s1.
Qed.

(* --------------------------------------------------------------------- *)
(* What attach leaves in cleanupMap                                       *)
(* --------------------------------------------------------------------- *)

Lemma forEach_attach_lookup node refs s s' ref :
  forEach (attach_step h node) refs s = (Ok tt, s') →
  (ref ∈ refs →
     ∃ x, cleanupMap s' !! ref = Some x ∧ x ≠ JUndefined) ∧
  (ref ∉ refs → cleanupMap s' !! ref = cleanupMap s !! ref).
Proof.
  revert s. induction refs as [|r refs IH]; intros s; simpl.
  - intros [= <-]. split; [by intros ?%elem_of_nil | done].
  - intros Hrun. apply bind_ok_inv in Hrun as ([] & s1 & Hstep & Hrest).
    apply attach_step_ok_inv in Hstep as (x & s2 & _ & ->).
    destruct (IH _ Hrest) as [Hin Hout]. simpl in Hout. split.
    + intros Href. destruct (decide (ref ∈ refs)) as [|Hnotin]; [auto|].
      apply elem_of_cons in Href as [-> | ?]; [|done].
      rewrite (Hout Hnotin), lookup_insert_eq.
      eexists; split; [done|]. by destruct x.
    + intros [Hne Hnotin]%not_elem_of_cons.
      by rewrite (Hout Hnotin), lookup_insert_ne.
Qed.

(** C5: attach (a node that is not null) over pre ++ ref :: post is the
    attach over pre, then assignRef of that ref with the node, whatever
    the shape of the ref, and the result stored in cleanupMap under the
    ref itself (null if assignRef returned undefined or null; otherwise
    the returned value as it is, a function or not), then the attach over
    post.  When the steps up to and including that ref return, the state
    then differs from the one assignRef left only by that entry; and when
    the whole attach returns, the ref is a key of cleanupMap with a value
    that is not undefined. *)
Theorem attach_stores_every_result pre ref post v s :
  mergeRefs h (pre ++ ref :: post) (Some v) s =
    (mergeRefs h pre (Some v) >>
     (let! r := assignRef h ref (Some v) in map_set ref (nullish r JNull)) >>
     mergeRefs h post (Some v)) s ∧
  (∀ s1 r s2,
     mergeRefs h pre (Some v) s = (Ok tt, s1) →
     assignRef h ref (Some v) s1 = (Ok r, s2) →
     mergeRefs h (pre ++ [ref]) (Some v) s =
       (Ok tt,
        mkState
          (<[ref := match r with
                    | JUndefined | JNull => JNull
                    | JFun c => JFun c
                    | JOther is_truthy => JOther is_truthy
                    end]>
             (cleanupMap s1))
          (world s2) (trace s2))) ∧
  (∀ s', mergeRefs h (pre ++ ref :: post) (Some v) s = (Ok tt, s') →
     ∃ x, cleanupMap s' !! ref = Some x ∧ x ≠ JUndefined).
Proof.
  split_and!.
  - simpl. by rewrite forEach_app.
  - simpl. intros s1 r s2 Hpre Hassign.
    rewrite forEach_app, (bind_ok_run _ _ _ _ _ Hpre). simpl.
    rewrite (bind_ok_run _ _ _ _ _ (attach_step_ok _ _ _ _ _ Hassign)).
    unfold ret. by destruct r.
  - simpl. intros s' Hrun.
    apply (forEach_attach_lookup _ _ _ _ ref) in Hrun as [Hin _].
    apply Hin. set_solver.
Qed.

(* --------------------------------------------------------------------- *)
(* Lists of callbacks                                                     *)
(* --------------------------------------------------------------------- *)

Lemma attach_step_fn v f s r w :
  fn_body h f (Some v) (world s) = (Ok r, w) →
  attach_step h (Some v) (RefFn f) s =
    (Ok tt, mkState (<[RefFn f := nullish r JNull]> (cleanupMap s)) w
              (trace s ++ [EvCall f (Some v) (Ok r)])).
Proof.
  intros Hbody. apply (attach_step_ok _ _ _ r
    (mkState (cleanupMap s) w (trace s ++ [EvCall f (Some v) (Ok r)]))).
  rewrite assignRef_fn. by rewrite Hbody.
Qed.

Lemma detach_step_fn_fallback f s r w :
  truthy (default JUndefined (cleanupMap s !! RefFn f)) = false →
  fn_body h f None (world s) = (Ok r, w) →
  detach_step h (RefFn f) s =
    (Ok tt, mkState (cleanupMap s) w (trace s ++ [EvCall f None (Ok r)])).
Proof.
  intros Hfalsy Hbody. rewrite detach_step_fallback by done.
  unfold bind. rewrite assignRef_fn. by rewrite Hbody.
Qed.

Lemma detach_step_fn_cleanup ref s c w :
  cleanupMap s !! ref = Some (JFun c) →
  cleanup_body h c (world s) = (Ok tt, w) →
  detach_step h ref s =
    (Ok tt, mkState (cleanupMap s) w (trace s ++ [EvCleanup c (Ok tt)])).
Proof.
  intros Hget Hbody.
  rewrite (detach_step_cleanup _ _ _ Hget), call_cleanup_run.
  by rewrite Hbody.
Qed.

Lemma attach_no_cleanup fs v s :
  Forall (no_cleanup h) fs →
  ∃ s1 evs,
    forEach (attach_step h (Some v)) (RefFn <$> fs) s = (Ok tt, s1) ∧
    trace s1 = trace s ++ evs ∧
    Forall2 (λ f ev, ∃ r, ev = EvCall f (Some v) (Ok r)) fs evs ∧
    (∀ ref, truthy (default JUndefined (cleanupMap s !! ref)) = false →
            truthy (default JUndefined (cleanupMap s1 !! ref)) = false) ∧
    (∀ f, f ∈ fs →
       truthy (default JUndefined (cleanupMap s1 !! RefFn f)) = false).
Proof.
  intros Hfs. revert s. induction Hfs as [|f fs Hf _ IH]; intros s.
  - exists s, []. simpl. rewrite app_nil_r.
    split_and!; [done | done | constructor | done |].
    by intros f ?%elem_of_nil.
  - destruct (Hf (Some v) (world s)) as (r & w & Hbody & Hfalsy).
    pose proof (attach_step_fn _ _ _ _ _ Hbody) as Hstep.
    assert (truthy (nullish r JNull) = false) as Hnull by (by destruct r).
    destruct (IH (mkState (<[RefFn f := nullish r JNull]> (cleanupMap s)) w
                    (trace s ++ [EvCall f (Some v) (Ok r)])))
      as (s1 & evs & Hrun & Htrace & Hevs & Hkeep & Hin).
    simpl in Htrace, Hkeep.
    exists s1, (EvCall f (Some v) (Ok r) :: evs). split_and!.
    + simpl. by rewrite (bind_ok_run _ _ _ _ _ Hstep).
    + by rewrite Htrace, <- app_assoc.
    + constructor; eauto.
    + intros ref Href. apply Hkeep.
      destruct (decide (ref = RefFn f)) as [->|Hne].
      * by rewrite lookup_insert_eq.
      * by rewrite lookup_insert_ne.
    + intros g [-> | Hg]%elem_of_cons; [|auto].
      apply Hkeep. by rewrite lookup_insert_eq.
Qed.

Lemma detach_no_cleanup fs s :
  Forall (no_cleanup h) fs →
  (∀ f, f ∈ fs →
     truthy (default JUndefined (cleanupMap s !! RefFn f)) = false) →
  ∃ s2 evs,
    forEach (detach_step h) (RefFn <$> fs) s = (Ok tt, s2) ∧
    trace s2 = trace s ++ evs ∧
    Forall2 (λ f ev, ∃ r, ev = EvCall f None (Ok r)) fs evs ∧
    cleanupMap s2 = cleanupMap s.
Proof.
  intros Hfs. revert s. induction Hfs as [|f fs Hf _ IH]; intros s Hfalsy.
  - exists s, []. simpl. rewrite app_nil_r. split_and!; [done..| constructor | done].
  - destruct (Hf None (world s)) as (r & w & Hbody & _).
    pose proof (detach_step_fn_fallback f s r w) as Hstep.
    rewrite Hbody in Hstep. specialize (Hstep (Hfalsy f ltac:(left)) eq_refl).
    destruct (IH (mkState (cleanupMap s) w (trace s ++ [EvCall f None (Ok r)])))
      as (s2 & evs & Hrun & Htrace & Hevs & Hmap).
    { intros g Hg. simpl. apply Hfalsy. by right. }
    simpl in Htrace, Hmap.
    exists s2, (EvCall f None (Ok r) :: evs). split_and!.
    + simpl. by rewrite (bind_ok_run _ _ _ _ _ Hstep).
    + by rewrite Htrace, <- app_assoc.
    + constructor; eauto.
    + done.
Qed.

(** X10: for a list fs of callbacks (of any length, repetitions allowed)
    none of which returns a value that is truthy (they return undefined,
    null, 0, ...), in any state: the merged ref called with a value v that
    is not null returns, and the calls it makes are exactly one call f(v)
    per element f of fs, in the order of fs; called with null afterwards,
    in whatever heap the program has reached by then, it returns, and the
    calls it makes are exactly one call f(null) per element f of fs, in the
    order of fs. *)
Theorem legacy_callbacks fs v s :
  Forall (no_cleanup h) fs →
  ∃ s1 evs1,
    mergeRefs h (RefFn <$> fs) (Some v) s = (Ok tt, s1) ∧
    trace s1 = trace s ++ evs1 ∧
    Forall2 (λ f ev, ∃ r, ev = EvCall f (Some v) (Ok r)) fs evs1 ∧
    ∀ w, ∃ s2 evs2,
      mergeRefs h (RefFn <$> fs) None (mkState (cleanupMap s1) w (trace s1))
        = (Ok tt, s2) ∧
      trace s2 = trace s1 ++ evs2 ∧
      Forall2 (λ f ev, ∃ r, ev = EvCall f None (Ok r)) fs evs2.
Proof.
  intros Hfs.
  destruct (attach_no_cleanup fs v s Hfs)
    as (s1 & evs1 & Hrun1 & Htrace1 & Hevs1 & _ & Hnull).
  exists s1, evs1. split_and!; [done..|]. intros w.
  destruct (detach_no_cleanup fs (mkState (cleanupMap s1) w (trace s1)) Hfs)
    as (s2 & evs2 & Hrun2 & Htrace2 & Hevs2 & _).
  { intros f Hf. simpl. by apply Hnull. }
  exists (mkState ∅ (world s2) (trace s2)), evs2. split_and!; [|done..].
  simpl. by rewrite (bind_ok_run _ _ _ _ _ Hrun2).
Qed.

Lemma attach_returns_cleanup fs v s :
  Forall (returns_cleanup h) fs →
  ∃ cs s1,
    forEach (attach_step h (Some v)) (RefFn <$> fs) s = (Ok tt, s1) ∧
    length cs = length fs ∧
    Forall (cleanup_returns h) cs ∧
    trace s1 =
      trace s ++ zip_with (λ f c, EvCall f (Some v) (Ok (JFun c))) fs cs ∧
    (∀ ref, ref ∉ RefFn <$> fs → cleanupMap s1 !! ref = cleanupMap s !! ref) ∧
    (NoDup fs →
     Forall2 (λ f c, cleanupMap s1 !! RefFn f = Some (JFun c)) fs cs).
Proof.
  intros Hfs. revert s. induction Hfs as [|f fs Hf _ IH]; intros s.
  - exists [], s. simpl. rewrite app_nil_r.
    split_and!; [done | done | constructor | done | done | constructor].
  - destruct (Hf v (world s)) as (c & w & Hbody & Hc).
    pose proof (attach_step_fn _ _ _ _ _ Hbody) as Hstep. simpl in Hstep.
    destruct (IH (mkState (<[RefFn f := JFun c]> (cleanupMap s)) w
                    (trace s ++ [EvCall f (Some v) (Ok (JFun c))])))
      as (cs & s1 & Hrun & Hlen & Hcs & Htrace & Hout & Hin).
    simpl in Htrace, Hout.
    exists (c :: cs), s1. split_and!.
    + simpl. by rewrite (bind_ok_run _ _ _ _ _ Hstep).
    + simpl. by rewrite Hlen.
    + by constructor.
    + by rewrite Htrace, <- app_assoc.
    + intros ref [Hne Href]%not_elem_of_cons.
      by rewrite (Hout _ Href), lookup_insert_ne.
    + intros [Hf_fresh Hnodup]%NoDup_cons. constructor; [|auto].
      rewrite Hout, lookup_insert_eq; [done|].
      by intros ?%(list_elem_of_fmap_inj_2 RefFn).
Qed.

Lemma detach_stored_cleanups fs cs s :
  Forall2 (λ f c, cleanupMap s !! RefFn f = Some (JFun c)) fs cs →
  Forall (cleanup_returns h) cs →
  ∃ s2,
    forEach (detach_step h) (RefFn <$> fs) s = (Ok tt, s2) ∧
    trace s2 = trace s ++ ((λ c, EvCleanup c (Ok tt)) <$> cs) ∧
    cleanupMap s2 = cleanupMap s.
Proof.
  revert cs s. induction fs as [|f fs IH]; intros cs s Hstored Hcs.
  - apply Forall2_nil_inv_l in Hstored as ->.
    exists s. simpl. by rewrite app_nil_r.
  - apply Forall2_cons_inv_l in Hstored as (c & cs' & Hget & Hstored & ->).
    apply Forall_cons in Hcs as [Hc Hcs].
    destruct (Hc (world s)) as (w & Hbody).
    pose proof (detach_step_fn_cleanup _ _ _ _ Hget Hbody) as Hstep.
    destruct (IH cs' (mkState (cleanupMap s) w
                        (trace s ++ [EvCleanup c (Ok tt)])))
      as (s2 & Hrun & Htrace & Hmap); [done|done|].
    simpl in Htrace, Hmap.
    exists s2. split_and!.
    + simpl. by rewrite (bind_ok_run _ _ _ _ _ Hstep).
    + rewrite Htrace, <- app_assoc. done.
    + done.
Qed.

(** C2 (amended): for a list fs of callbacks no two of which are the same
    function, each returning a cleanup function when called with a value
    that is not null, in any state: the merged ref called with such a value
    v returns, and the calls it makes are exactly one call f(v) per element
    of fs, in order, and no cleanup call; called with null afterwards, in
    whatever heap the program has reached by then, it returns, and the calls
    it makes are exactly one call of each function captured at the attach,
    in order: no callback is called with null. *)
Theorem cleanup_callbacks fs v s :
  NoDup fs → Forall (returns_cleanup h) fs →
  cleanup_per_occurrence h fs v s.
Proof.
  intros Hnodup Hfs.
  destruct (attach_returns_cleanup fs v s Hfs)
    as (cs & s1 & Hrun1 & Hlen & Hcs & Htrace1 & _ & Hstored).
  exists cs, s1. split_and!; [done..|]. intros w.
  destruct (detach_stored_cleanups fs cs
              (mkState (cleanupMap s1) w (trace s1)) (Hstored Hnodup) Hcs)
    as (s2 & Hrun2 & Htrace2 & _).
  exists (mkState ∅ (world s2) (trace s2)). split; [|done].
  simpl. by rewrite (bind_ok_run _ _ _ _ _ Hrun2).
Qed.

(** X9: for two callbacks A and B, where A called with a value that is
    not null returns a cleanup function and B returns nothing that is
    truthy (undefined, null, 0, ...), in any state: the merged ref of
    [A; B] called with a value v that is not null returns, and the calls
    it makes are A(v), which returns some function c, then B(v); called
    with null afterwards, in whatever heap the program has reached by then,
    it returns, and the calls it makes are c() then B(null), and nothing
    else: A is not called with null. *)
Theorem mixed_pair A B v s :
  returns_cleanup h A → no_cleanup h B →
  ∃ c r s1,
    mergeRefs h [RefFn A; RefFn B] (Some v) s = (Ok tt, s1) ∧
    trace s1 =
      trace s ++ [EvCall A (Some v) (Ok (JFun c)); EvCall B (Some v) (Ok r)] ∧
    ∀ w, ∃ r' s2,
      mergeRefs h [RefFn A; RefFn B] None
        (mkState (cleanupMap s1) w (trace s1)) = (Ok tt, s2) ∧
      trace s2 = trace s1 ++ [EvCleanup c (Ok tt); EvCall B None (Ok r')].
Proof.
  intros HA HB.
  assert (A ≠ B) as Hne.
  { intros ->. destruct (HA v (world s)) as (c & w & Hbody & _).
    destruct (HB (Some v) (world s)) as (r & w' & Hbody' & Hfalsy).
    rewrite Hbody in Hbody'. by injection Hbody' as <- _. }
  destruct (HA v (world s)) as (c & wA & HbodyA & Hc).
  destruct (HB (Some v) wA) as (r & wB & HbodyB & Hfalsy).
  pose proof (attach_step_fn v A s _ _ HbodyA) as HstepA. simpl in HstepA.
  set (sA := mkState (<[RefFn A := JFun c]> (cleanupMap s)) wA
               (trace s ++ [EvCall A (Some v) (Ok (JFun c))])) in *.
  pose proof (attach_step_fn v B sA r wB HbodyB) as HstepB.
  assert (truthy (nullish r JNull) = false) as Hnull by (by destruct r).
  eexists c, r, _. split_and!.
  - simpl. rewrite (bind_ok_run _ _ _ _ _ HstepA).
    rewrite (bind_ok_run _ _ _ _ _ HstepB). reflexivity.
  - simpl. by rewrite <- app_assoc.
  - intros w. simpl.
    destruct (Hc w) as (w1 & Hcleanup).
    destruct (HB None w1) as (r' & w2 & HbodyB' & _).
    exists r'. eexists.
    erewrite bind_ok_run; last first.
    { erewrite bind_ok_run; last first.
      { apply detach_step_fn_cleanup with (c := c) (w := w1); simpl; [|done].
        rewrite lookup_insert_ne by congruence. apply lookup_insert_eq. }
      erewrite bind_ok_run; last first.
      { apply detach_step_fn_fallback with (r := r') (w := w2); simpl; [|done].
        by rewrite lookup_insert_eq. }
      reflexivity. }
    simpl. split; [reflexivity|]. by rewrite <- !app_assoc.
Qed.

(* --------------------------------------------------------------------- *)
(* The registry over a cycle                                              *)
(* --------------------------------------------------------------------- *)

Lemma forEach_attach_dom node refs s s' :
  forEach (attach_step h node) refs s = (Ok tt, s') →
  dom (cleanupMap s') = dom (cleanupMap s) ∪ list_to_set refs.
Proof.
  intros Hrun. apply set_eq. intros ref.
  rewrite elem_of_union, elem_of_list_to_set, !elem_of_dom.
  destruct (forEach_attach_lookup _ _ _ _ ref Hrun) as [Hin Hout].
  destruct (decide (ref ∈ refs)) as [Href|Href].
  - destruct (Hin Href) as (x & -> & _). split; [auto | by eexists].
  - rewrite (Hout Href). tauto.
Qed.

Lemma mergeRefs_detach_ok_inv refs s s2 :
  mergeRefs h refs None s = (Ok tt, s2) →
  ∃ s1, forEach (detach_step h) refs s = (Ok tt, s1) ∧
        s2 = mkState ∅ (world s1) (trace s1).
Proof.
  simpl. intros Hrun.
  apply bind_ok_inv in Hrun as ([] & s1 & Hrun & Hclear).
  exists s1. split; [done|]. unfold map_clear in Hclear. congruence.
Qed.

(** C6: take a new instance over refs, an attach that returns, and then,
    in whatever heap the program has reached by then, a detach that
    returns.  After the attach the keys of cleanupMap are exactly the
    elements of refs, one entry for each distinct ref, none of them
    undefined, and the entries stay as they are while the detach goes
    through the list, whatever part of it has been done.  After the detach
    cleanupMap is empty: the state is that of a new instance in the current
    heap, so whatever is called next runs as it would on a new instance. *)
Theorem registry_cycle refs v w tr s1 w' s2 :
  mergeRefs h refs (Some v) (fresh w tr) = (Ok tt, s1) →
  mergeRefs h refs None (mkState (cleanupMap s1) w' (trace s1)) = (Ok tt, s2) →
  dom (cleanupMap s1) = list_to_set refs ∧
  size (cleanupMap s1) = length (remove_dups refs) ∧
  (∀ ref, ref ∈ refs → ∃ x, cleanupMap s1 !! ref = Some x ∧ x ≠ JUndefined) ∧
  (∀ pre post, refs = pre ++ post →
     cleanupMap (forEach (detach_step h) pre
                   (mkState (cleanupMap s1) w' (trace s1))).2
       = cleanupMap s1) ∧
  cleanupMap s2 = new_cleanupMap ∧
  s2 = fresh (world s2) (trace s2) ∧
  (∀ node, mergeRefs h refs node s2 =
           mergeRefs h refs node (fresh (world s2) (trace s2))).
Proof.
  intros Hattach Hdetach. simpl in Hattach.
  assert (dom (cleanupMap s1) = list_to_set refs) as Hdom.
  { rewrite (forEach_attach_dom _ _ _ _ Hattach). simpl.
    unfold new_cleanupMap. rewrite dom_empty_L. apply (left_id_L ∅ (∪)). }
  apply mergeRefs_detach_ok_inv in Hdetach as (s1' & _ & ->).
  split_and!.
  - done.
  - rewrite <- size_dom, Hdom.
    rewrite <- (size_list_to_set (C:=gset PossibleRef) (remove_dups refs))
      by apply NoDup_remove_dups.
    f_equal. apply set_eq. intros ref.
    by rewrite !elem_of_list_to_set, elem_of_remove_dups.
  - intros ref Href.
    by apply (forEach_attach_lookup _ _ _ _ ref Hattach).
  - intros pre post _. by rewrite forEach_detach_cleanupMap.
  - done.
  - done.
  - done.
Qed.

(* --------------------------------------------------------------------- *)
(* Invariant: only a callback has a function in cleanupMap                *)
(* --------------------------------------------------------------------- *)

Lemma forEach_invariant {A} (P : State T U Exn Cleanup → Prop)
    (cb : A → M unit) l s :
  (∀ x s, P s → P (cb x s).2) → P s → P (forEach cb l s).2.
Proof.
  intros Hcb. revert s. induction l as [|x l IH]; intros s Hs; simpl; [done|].
  unfold bind. specialize (Hcb x s Hs).
  destruct (cb x s) as [[[]|e] s1]; simpl in *; auto.
Qed.

Lemma assignRef_fun_inv ref value s c s' :
  assignRef h ref value s = (Ok (JFun c), s') → ∃ f, ref = RefFn f.
Proof. destruct ref; try discriminate. eauto. Qed.

Lemma attach_step_only_callbacks node ref s :
  only_callbacks_have_cleanup (cleanupMap s) →
  only_callbacks_have_cleanup (cleanupMap (attach_step h node ref s).2).
Proof.
  intros Hinv.
  destruct (assignRef h ref node s) as [[r|e] s1] eqn:Hassign.
  - rewrite (attach_step_ok _ _ _ _ _ Hassign). simpl. intros ref' c.
    destruct (decide (ref = ref')) as [<-|Hne].
    + rewrite lookup_insert_eq. intros [= Hr].
      destruct r; try discriminate.
      by apply assignRef_fun_inv in Hassign.
    + rewrite lookup_insert_ne by done. apply Hinv.
  - rewrite (attach_step_throw _ _ _ _ _ Hassign).
    pose proof (assignRef_cleanupMap ref node s) as Hmap.
    rewrite Hassign in Hmap. simpl in *. by rewrite Hmap.
Qed.

Lemma mergeRefs_only_callbacks refs node s :
  only_callbacks_have_cleanup (cleanupMap s) →
  only_callbacks_have_cleanup (cleanupMap (mergeRefs h refs node s).2).
Proof.
  intros Hinv. destruct node as [v|]; simpl.
  - apply (forEach_invariant
             (λ s, only_callbacks_have_cleanup (cleanupMap s))); [|done].
    intros ref s'. apply attach_step_only_callbacks.
  - unfold bind. pose proof (forEach_detach_cleanupMap refs s) as Hmap.
    destruct (forEach (detach_step h) refs s) as [[[]|e] s1]; simpl in *.
    + intros ref c. by rewrite lookup_empty.
    + by rewrite Hmap.
Qed.

Lemma reachable_only_callbacks refs s :
  reachable h refs s → only_callbacks_have_cleanup (cleanupMap s).
Proof.
  induction 1 as [w tr | s node _ IH | s w _ IH].
  - intros ref c. simpl. unfold new_cleanupMap. by rewrite lookup_empty.
  - by apply mergeRefs_only_callbacks.
  - done.
Qed.

(* The same for every value but null: a ref that is not a callback has
   null under it, if anything. *)

Lemma assignRef_value_inv ref value s x s' :
  assignRef h ref value s = (Ok x, s') → x ≠ JUndefined → ∃ f, ref = RefFn f.
Proof.
  destruct ref as [| |f|o]; [| |by eauto|]; by intros [= <- _].
Qed.

Lemma attach_step_only_values node ref s :
  only_callbacks_have_values (cleanupMap s) →
  only_callbacks_have_values (cleanupMap (attach_step h node ref s).2).
Proof.
  intros Hinv.
  destruct (assignRef h ref node s) as [[r|e] s1] eqn:Hassign.
  - rewrite (attach_step_ok _ _ _ _ _ Hassign). simpl. intros ref' x.
    destruct (decide (ref = ref')) as [<-|Hne].
    + rewrite lookup_insert_eq. intros [= <-] Hx.
      apply (assignRef_value_inv _ _ _ _ _ Hassign). by destruct r.
    + rewrite lookup_insert_ne by done. apply Hinv.
  - rewrite (attach_step_throw _ _ _ _ _ Hassign).
    pose proof (assignRef_cleanupMap ref node s) as Hmap.
    rewrite Hassign in Hmap. simpl in *. by rewrite Hmap.
Qed.

Lemma mergeRefs_only_values refs node s :
  only_callbacks_have_values (cleanupMap s) →
  only_callbacks_have_values (cleanupMap (mergeRefs h refs node s).2).
Proof.
  intros Hinv. destruct node as [v|]; simpl.
  - apply (forEach_invariant
             (λ s, only_callbacks_have_values (cleanupMap s))); [|done].
    intros ref s'. apply attach_step_only_values.
  - unfold bind. pose proof (forEach_detach_cleanupMap refs s) as Hmap.
    destruct (forEach (detach_step h) refs s) as [[[]|e] s1]; simpl in *.
    + intros ref x. by rewrite lookup_empty.
    + by rewrite Hmap.
Qed.

Lemma reachable_only_values refs s :
  reachable h refs s → only_callbacks_have_values (cleanupMap s).
Proof.
  induction 1 as [w tr | s node _ IH | s w _ IH].
  - intros ref x. simpl. unfold new_cleanupMap. by rewrite lookup_empty.
  - by apply mergeRefs_only_values.
  - done.
Qed.

Lemma only_values_falsy (m : gmap PossibleRef (JsVal Cleanup)) ref :
  only_callbacks_have_values m → (∀ f, ref ≠ RefFn f) →
  truthy (default JUndefined (m !! ref)) = false.
Proof.
  intros Hinv Hne. destruct (m !! ref) as [x|] eqn:Hget; [|done].
  assert (x = JNull ∨ x ≠ JNull) as [->|Hx] by (destruct x; auto);
    [done|].
  destruct (Hinv _ _ Hget Hx) as [f ->]. by destruct (Hne f).
Qed.

(* --------------------------------------------------------------------- *)
(* Ref objects                                                            *)
(* --------------------------------------------------------------------- *)

Lemma assignRef_cells ref value s o :
  (∀ f w, ref = RefFn f →
     cells (fn_body h f value w).2 !! o = cells w !! o) →
  cells (world (assignRef h ref value s).2) !! o =
    if decide (ref = RefObj o) then Some value else cells (world s) !! o.
Proof.
  intros Hleave. destruct (decide (ref = RefObj o)) as [->|Hne].
  - rewrite assignRef_obj. simpl. by rewrite lookup_insert_eq.
  - destruct ref as [| |f|o']; try done.
    + rewrite assignRef_fn. simpl. by apply Hleave.
    + rewrite assignRef_obj. simpl. rewrite lookup_insert_ne; [done | congruence].
Qed.


Lemma detach_step_cells ref s o :
  truthy (default JUndefined (cleanupMap s !! RefObj o)) = false →
  (∀ f w, ref = RefFn f →
     cells (fn_body h f None w).2 !! o = cells w !! o) →
  (∀ c w, cells (cleanup_body h c w).2 !! o = cells w !! o) →
  cells (world (detach_step h ref s).2) !! o =
    if decide (ref = RefObj o) then Some None else cells (world s) !! o.
Proof.
  intros Hfalsy Hfn Hcleanup.
  destruct (cleanupMap s !! ref) as [[| |c|[]]|] eqn:Hget.
  1,2,5,6: rewrite detach_step_fallback by (by rewrite Hget);
    unfold bind; pose proof (assignRef_cells ref None s o Hfn) as Hcell;
    by destruct (assignRef h ref None s) as [[?|?] ?].
  - rewrite (detach_step_cleanup _ _ _ Hget), call_cleanup_run. simpl.
    rewrite decide_False; [apply Hcleanup|].
    intros ->. by rewrite Hget in Hfalsy.
  - rewrite (detach_step_not_callable _ _ Hget). simpl.
    rewrite decide_False; [done|].
    intros ->. by rewrite Hget in Hfalsy.
Qed.

Lemma forEach_detach_cells refs s s' o :
  truthy (default JUndefined (cleanupMap s !! RefObj o)) = false →
  leaves_cell h refs o →
  forEach (detach_step h) refs s = (Ok tt, s') →
  cells (world s') !! o =
    if decide (RefObj o ∈ refs) then Some None else cells (world s) !! o.
Proof.
  intros Hnofun [Hfn Hcleanup]. revert s Hnofun.
  induction refs as [|ref refs IH]; intros s Hnofun; cbn [forEach].
  - intros [= <-]. case_decide as Hin; [by apply elem_of_nil in Hin | done].
  - intros Hrun. apply bind_ok_inv in Hrun as ([] & s1 & Hstep & Hrest).
    pose proof (detach_step_cells ref s o Hnofun) as Hcell.
    pose proof (detach_step_cleanupMap ref s) as Hmap.
    rewrite Hstep in Hcell, Hmap. simpl in Hcell, Hmap.
    apply IH in Hrest;
      [| intros; apply Hfn; by right | by rewrite Hmap].
    rewrite Hrest, Hcell; [| intros f w ->; apply Hfn; left | done].
    destruct (decide (RefObj o ∈ refs)) as [Hin|Hnotin].
    + rewrite decide_True; [done | by right].
    + destruct (decide (ref = RefObj o)) as [->|Hne].
      * rewrite decide_True; [done | left].
      * rewrite decide_False; [done|].
        by intros [?|?]%elem_of_cons.
Qed.


(* --------------------------------------------------------------------- *)
(* Absent refs                                                            *)
(* --------------------------------------------------------------------- *)

Lemma step_absent node ref s :
  is_absent ref = true →
  only_callbacks_have_values (cleanupMap s) →
  ∃ s1, step h node ref s = (Ok tt, s1) ∧
        same_but_absent s1 s ∧
        only_callbacks_have_values (cleanupMap s1).
Proof.
  intros Habsent Hinv. destruct node as [v|]; simpl.
  - rewrite (attach_step_ok _ _ _ JUndefined s)
      by by apply assignRef_absent.
    eexists. split; [done|]. split.
    + split_and!; [done..|]. intros ref' Hpresent. simpl.
      rewrite lookup_insert_ne; [done | intros ->; congruence].
    + pose proof (attach_step_only_values (Some v) ref s Hinv) as Hinv'.
      rewrite (attach_step_ok _ _ _ JUndefined s) in Hinv'; [done|].
      by apply assignRef_absent.
  - exists s. split; [|done].
    rewrite detach_step_fallback.
    + unfold bind. by rewrite assignRef_absent.
    + apply only_values_falsy; [done|]. intros f ->. done.
Qed.

Lemma step_present node ref s s' :
  is_absent ref = false → same_but_absent s s' →
  (step h node ref s).1 = (step h node ref s').1 ∧
  same_but_absent (step h node ref s).2 (step h node ref s').2.
Proof.
  intros Hpresent (Hworld & Htrace & Hmap).
  destruct s as [m w tr], s' as [m' w' tr']. simpl in *. subst w' tr'.
  assert (∀ x ref',
    is_absent ref' = false → <[ref := x]> m !! ref' = <[ref := x]> m' !! ref')
    as Hinsert.
  { intros x ref' Href'. destruct (decide (ref = ref')) as [->|Hne].
    - by rewrite !lookup_insert_eq.
    - rewrite !lookup_insert_ne by done. auto. }
  destruct node as [v|]; simpl.
  - unfold attach_step, bind, map_set.
    destruct ref as [| |f|o]; try done.
    + rewrite !assignRef_fn. simpl.
      destruct (fn_body h f (Some v) w) as [[r|e] w1]; simpl;
        repeat split; simpl; auto.
    + rewrite !assignRef_obj. simpl. repeat split; simpl; auto.
  - unfold detach_step, bind, map_get. simpl.
    rewrite <- (Hmap ref Hpresent).
    destruct (default JUndefined (m !! ref)) as [| |c|[]]; simpl.
    1,2,5: destruct ref as [| |f|o]; try done;
      rewrite ?assignRef_fn, ?assignRef_obj; simpl;
      try destruct (fn_body h f None w) as [[r|e] w1]; simpl;
      repeat split; simpl; auto.
    + rewrite !call_cleanup_run. simpl. repeat split; simpl; auto.
    + unfold throw. repeat split; simpl; auto.
Qed.

Lemma forEach_skip_absent node refs s s' :
  same_but_absent s s' →
  only_callbacks_have_values (cleanupMap s) →
  (forEach (step h node) refs s).1 =
    (forEach (step h node) (present_refs refs) s').1 ∧
  same_but_absent (forEach (step h node) refs s).2
    (forEach (step h node) (present_refs refs) s').2.
Proof.
  revert s s'. induction refs as [|ref refs IH]; intros s s' Hsame Hinv.
  - done.
  - unfold present_refs. rewrite filter_cons. cbn [forEach].
    destruct (is_absent ref) eqn:Habsent.
    + rewrite decide_False by done.
      destruct (step_absent node ref s Habsent Hinv)
        as (s1 & Hstep & (Hw & Ht & Hm) & Hinv1).
      rewrite (bind_ok_run _ _ _ _ _ Hstep). apply IH; [|done].
      destruct Hsame as (Hw' & Ht' & Hm').
      split_and!; [congruence | congruence |].
      intros ref' Href'. rewrite Hm by done. auto.
    + rewrite decide_True by done. cbn [forEach].
      destruct (step_present node ref s s' Habsent Hsame) as [Hout Hsame1].
      assert (only_callbacks_have_values
                (cleanupMap (step h node ref s).2)) as Hinv1.
      { destruct node as [v|]; simpl.
        - by apply attach_step_only_values.
        - by rewrite detach_step_cleanupMap. }
      destruct (step h node ref s) as [[[]|e] s1] eqn:Hs,
               (step h node ref s') as [[[]|e'] s1'] eqn:Hs'; simpl in *;
        try discriminate.
      * rewrite (bind_ok_run _ _ _ _ _ Hs), (bind_ok_run _ _ _ _ _ Hs').
        by apply IH.
      * by rewrite (bind_throw_run _ _ _ _ _ Hs),
          (bind_throw_run _ _ _ _ _ Hs').
Qed.

(** C8 (amended): in every state an instance over refs can be in, a call
    of the merged ref, with a value or with null, has the same outcome,
    leaves the same heap and makes the same calls as the merged ref of refs
    without its undefined and null elements would, and the two leave the
    same entries in cleanupMap under every callback and ref object.  No
    function is ever stored under undefined or null; but an attach that
    returns does leave each undefined or null element of refs as a key of
    cleanupMap, with the value null. *)
Theorem absent_refs refs node s :
  reachable h refs s →
  (mergeRefs h refs node s).1 = (mergeRefs h (present_refs refs) node s).1 ∧
  same_but_absent (mergeRefs h refs node s).2
    (mergeRefs h (present_refs refs) node s).2 ∧
  (∀ ref c, is_absent ref = true →
     cleanupMap (mergeRefs h refs node s).2 !! ref ≠ Some (JFun c)) ∧
  (∀ v ref, node = Some v → (mergeRefs h refs node s).1 = Ok tt →
     ref ∈ refs → is_absent ref = true →
     cleanupMap (mergeRefs h refs node s).2 !! ref = Some JNull).
Proof.
  intros Hreach.
  pose proof (reachable_only_callbacks _ _ Hreach) as Hinv.
  pose proof (reachable_only_values _ _ Hreach) as Hvalues.
  assert (same_but_absent s s) as Hrefl by done.
  pose proof (forEach_skip_absent node refs s s Hrefl Hvalues)
    as [Hout Hsame].
  assert (∀ ref c, is_absent ref = true →
            cleanupMap (mergeRefs h refs node s).2 !! ref ≠ Some (JFun c))
    as Hnofun.
  { intros ref c Habsent Hget.
    destruct (mergeRefs_only_callbacks refs node s Hinv _ _ Hget) as [f ->].
    done. }
  split_and!.
  - destruct node as [v|]; [done|]. simpl in *. unfold bind.
    destruct (forEach (detach_step h) refs s) as [[[]|e] s1],
      (forEach (detach_step h) (present_refs refs) s) as [[[]|e'] s1'];
      simpl in *; done.
  - destruct node as [v|]; [done|]. simpl in *. unfold bind.
    destruct (forEach (detach_step h) refs s) as [[[]|e] s1],
      (forEach (detach_step h) (present_refs refs) s) as [[[]|e'] s1'];
      simpl in *; try done.
    destruct Hsame as (Hw & Ht & _). done.
  - done.
  - intros v ref -> Hok Href Habsent.
    pose proof (mergeRefs_only_values refs (Some v) s Hvalues) as Hafter.
    revert Hok Hafter.
    destruct (mergeRefs h refs (Some v) s) as [out s1] eqn:Hrun.
    simpl. intros -> Hafter. simpl in Hrun.
    destruct (forEach_attach_lookup _ _ _ _ ref Hrun) as [Hin _].
    destruct (Hin Href) as (x & Hget & Hdef).
    assert (x = JNull ∨ x ≠ JNull) as [->|Hx] by (destruct x; auto);
      [done|].
    destruct (Hafter _ _ Hget Hx) as [f ->]. done.
Qed.

(* --------------------------------------------------------------------- *)
(* Detach without an entry                                                *)
(* --------------------------------------------------------------------- *)

Lemma forEach_detach_fallback refs s :
  (∀ ref, ref ∈ refs →
     truthy (default JUndefined (cleanupMap s !! ref)) = false) →
  forEach (detach_step h) refs s =
    forEach (λ ref, assignRef h ref None >> ret tt) refs s.
Proof.
  revert s. induction refs as [|ref refs IH]; intros s Hfalsy; [done|].
  cbn [forEach]. unfold bind at 1 3.
  rewrite detach_step_fallback by (apply Hfalsy; left).
  pose proof (assignRef_cleanupMap ref None s) as Hmap. unfold bind.
  destruct (assignRef h ref None s) as [[r|e] s1]; simpl in *; [|done].
  apply IH. intros ref' Href'. rewrite Hmap. apply Hfalsy. by right.
Qed.

Lemma forEach_fallback_calls refs s :
  (∀ f w, RefFn f ∈ refs → ∃ r w', fn_body h f None w = (Ok r, w')) →
  ∃ s' evs,
    forEach (λ ref, assignRef h ref None >> ret tt) refs s = (Ok tt, s') ∧
    trace s' = trace s ++ evs ∧
    Forall2 (λ f ev, ∃ r, ev = EvCall f None (Ok r)) (callbacks_of refs) evs ∧
    cleanupMap s' = cleanupMap s.
Proof.
  revert s. induction refs as [|ref refs IH]; intros s Hret.
  - exists s, []. simpl. rewrite app_nil_r.
    split_and!; [done | done | constructor | done].
  - assert (∀ f w, RefFn f ∈ refs → ∃ r w', fn_body h f None w = (Ok r, w'))
      as Hret' by (intros; apply Hret; by right).
    destruct ref as [| |f|o]; cbn [forEach].
    1,2: destruct (IH s Hret') as (s' & evs & Hrun & Htrace & Hevs & Hmap);
      exists s', evs; by split_and!.
    + destruct (Hret f (world s)) as (r & w & Hbody); [left|].
      destruct (IH (mkState (cleanupMap s) w
                      (trace s ++ [EvCall f None (Ok r)])) Hret')
        as (s' & evs & Hrun & Htrace & Hevs & Hmap).
      simpl in Htrace, Hmap.
      exists s', (EvCall f None (Ok r) :: evs). split_and!.
      * unfold bind at 1 2. rewrite assignRef_fn, Hbody. done.
      * by rewrite Htrace, <- app_assoc.
      * simpl. constructor; eauto.
      * done.
    + destruct (IH (mkState (cleanupMap s)
                      (mkWorld (<[o := None]> (cells (world s)))
                         (user (world s))) (trace s)) Hret')
        as (s' & evs & Hrun & Htrace & Hevs & Hmap).
      exists s', evs. by split_and!.
Qed.

(** C10: a detach meets a ref for which cleanupMap has no entry (Map.get
    gives undefined): at whatever point of the iteration the ref comes,
    the step for it is assignRef(ref, null), and nothing is thrown by the
    combinator.  When no ref of the list has an entry, as in a new
    instance, the detach is assignRef(ref, null) for each ref in order, and
    then the clear; if the callbacks of the list return when called with
    null, the detach returns, the calls it makes are exactly one f(null)
    per callback f of the list, in order, cleanupMap is empty, and every
    ref object of the list that the callbacks leave alone has
    current = null. *)
Theorem detach_without_entry :
  (∀ pre ref s s1,
     cleanupMap s !! ref = None →
     forEach (detach_step h) pre s = (Ok tt, s1) →
     detach_step h ref s1 = (assignRef h ref None >> ret tt) s1) ∧
  (∀ refs s,
     (∀ ref, ref ∈ refs → cleanupMap s !! ref = None) →
     mergeRefs h refs None s =
       (forEach (λ ref, assignRef h ref None >> ret tt) refs >> map_clear) s ∧
     ((∀ f w, RefFn f ∈ refs → ∃ r w', fn_body h f None w = (Ok r, w')) →
      ∃ s' evs,
        mergeRefs h refs None s = (Ok tt, s') ∧
        trace s' = trace s ++ evs ∧
        Forall2 (λ f ev, ∃ r, ev = EvCall f None (Ok r))
          (callbacks_of refs) evs ∧
        cleanupMap s' = ∅ ∧
        ∀ o, RefObj o ∈ refs → leaves_cell h refs o →
             cells (world s') !! o = Some None)).
Proof.
  split.
  - intros pre ref s s1 Hnone Hpre.
    apply detach_step_fallback.
    pose proof (forEach_detach_cleanupMap pre s) as Hmap.
    rewrite Hpre in Hmap. simpl in Hmap. by rewrite Hmap, Hnone.
  - intros refs s Hnone.
    assert (forEach (detach_step h) refs s =
            forEach (λ ref, assignRef h ref None >> ret tt) refs s) as Heq.
    { apply forEach_detach_fallback. intros ref Href.
      by rewrite (Hnone ref Href). }
    split.
    + simpl. unfold bind at 1 3. by rewrite Heq.
    + intros Hret.
      destruct (forEach_fallback_calls refs s Hret)
        as (s1 & evs & Hrun & Htrace & Hevs & Hmap).
      rewrite <- Heq in Hrun.
      exists (mkState ∅ (world s1) (trace s1)), evs. split_and!; try done.
      * simpl. by rewrite (bind_ok_run _ _ _ _ _ Hrun).
      * intros o Ho Hleave. simpl.
        rewrite (forEach_detach_cells refs s s1 o); [by rewrite decide_True | | done..].
        by rewrite (Hnone _ Ho).
Qed.

(** X1: a detach that throws leaves cleanupMap exactly as it found it:
    line 38 is not reached, so the entries of the attach are still there
    when the merged ref is called next. *)
Theorem throwing_detach_keeps_registry refs s e s' :
  mergeRefs h refs None s = (Throw e, s') → cleanupMap s' = cleanupMap s.
Proof.
  simpl. intros Hrun.
  apply bind_throw_inv in Hrun as [Hrun | ([] & s1 & _ & Hclear)];
    [|discriminate].
  pose proof (forEach_detach_cleanupMap refs s) as Hmap.
  by rewrite Hrun in Hmap.
Qed.

(* --------------------------------------------------------------------- *)
(* The calls of an attach and of a detach, for any list                   *)
(* --------------------------------------------------------------------- *)

Lemma calls_end_as_cons {A} (out : Result Exn A)
    (ev : Event T Exn Cleanup) evs :
  event_returned ev → calls_end_as out evs → calls_end_as out (ev :: evs).
Proof.
  intros Hev. destruct out as [a|e]; simpl.
  - by constructor.
  - intros (evs' & ev' & -> & Hevs' & Hthrew).
    exists (ev :: evs'), ev'. split_and!; [done | by constructor | done].
Qed.

(** X2: for any list refs and any state: the calls an attach with v makes
    are calls f(v) of callbacks, one for each callback of refs, in the
    order of refs, up to and including the first one that throws, and all
    of them if none throws.  An attach calls no cleanup function and calls
    no callback with null, whatever cleanupMap holds. *)
Theorem attach_calls refs v s :
  ∃ fs evs,
    fs `prefix_of` callbacks_of refs ∧
    trace (mergeRefs h refs (Some v) s).2 = trace s ++ evs ∧
    Forall2 (λ f ev, ∃ out, ev = EvCall f (Some v) out) fs evs ∧
    calls_end_as (mergeRefs h refs (Some v) s).1 evs ∧
    ((mergeRefs h refs (Some v) s).1 = Ok tt → fs = callbacks_of refs).
Proof.
  simpl.
  revert s. induction refs as [|ref refs IH]; intros s.
  - exists [], []. simpl. rewrite app_nil_r.
    split_and!; [done | done | constructor | constructor | done].
  - cbn [forEach].
    destruct (assignRef h ref (Some v) s) as [[r|e] s1] eqn:Hassign.
    + rewrite (bind_ok_run _ _ _ _ _ (attach_step_ok _ _ _ _ _ Hassign)).
      destruct (IH (mkState (<[ref := nullish r JNull]> (cleanupMap s))
                      (world s1) (trace s1)))
        as (fs & evs & Hprefix & Htrace & Hcalls & Hend & Hall).
      simpl in Htrace.
      destruct ref as [| |f|o].
      1,2: rewrite assignRef_absent in Hassign by done;
        injection Hassign as <- <-; by exists fs, evs.
      * rewrite assignRef_fn in Hassign.
        destruct (fn_body h f (Some v) (world s)) as [out w] eqn:Hbody.
        simpl in Hassign. injection Hassign as -> <-. simpl in *.
        exists (f :: fs), (EvCall f (Some v) (Ok r) :: evs). split_and!.
        -- by apply prefix_cons.
        -- by rewrite Htrace, <- app_assoc.
        -- constructor; eauto.
        -- by apply calls_end_as_cons.
        -- intros Hok. by rewrite (Hall Hok).
      * rewrite assignRef_obj in Hassign. injection Hassign as <- <-.
        by exists fs, evs.
    + rewrite (bind_throw_run _ _ _ _ _ (attach_step_throw _ _ _ _ _ Hassign)).
      apply assignRef_throw_inv in Hassign as (f & -> & Hbody & ->). simpl.
      exists [f], [EvCall f (Some v) (Throw e)]. split_and!.
      * apply prefix_cons, prefix_nil.
      * done.
      * repeat constructor. eauto.
      * exists [], (EvCall f (Some v) (Throw e)). by split_and!.
      * done.
Qed.

Lemma detach_ends_as_cons m l out f ev fs evs :
  event_returned ev →
  detach_ends_as h m l out fs evs →
  detach_ends_as h m (f :: l) out (f :: fs) (ev :: evs).
Proof.
  intros Hev. destruct out as [[]|e]; simpl.
  - intros [-> Hevs]. split; [done | by constructor].
  - intros [(evs' & ev' & -> & Hevs' & Hthrew) | (Hevs & -> & g & Hg & Hget)].
    + left. exists (ev :: evs'), ev'.
      split_and!; [done | by constructor | done].
    + right. split_and!; [by constructor | done |].
      exists g. split; [by apply prefix_cons | done].
Qed.

Lemma forEach_detach_calls refs s :
  only_callbacks_have_values (cleanupMap s) →
  ∃ fs evs,
    fs `prefix_of` callbacks_of refs ∧
    trace (forEach (detach_step h) refs s).2 = trace s ++ evs ∧
    Forall2 (detach_call (cleanupMap s)) fs evs ∧
    detach_ends_as h (cleanupMap s) (callbacks_of refs)
      (forEach (detach_step h) refs s).1 fs evs.
Proof.
  revert s. induction refs as [|ref refs IH]; intros s Hinv.
  - exists [], []. simpl. rewrite app_nil_r.
    split_and!; [done | done | constructor | done | constructor].
  - cbn [forEach].
    pose proof (detach_step_cleanupMap ref s) as Hmap.
    destruct (detach_step h ref s) as [[[]|e] s1] eqn:Hstep; simpl in Hmap.
    + rewrite (bind_ok_run _ _ _ _ _ Hstep).
      destruct (IH s1) as (fs & evs & Hprefix & Htrace & Hcalls & Hend);
        [by rewrite Hmap|].
      rewrite Hmap in Hcalls, Hend.
      destruct (cleanupMap s !! ref) as [[| |c|[]]|] eqn:Hget.
      1,2,5,6: rewrite detach_step_fallback in Hstep by (by rewrite Hget);
        apply bind_ok_inv in Hstep as (r & s2 & Hassign & [= <-]);
        destruct ref as [| |f|o];
        [ rewrite assignRef_absent in Hassign by done;
          injection Hassign as <- <-; by exists fs, evs
        | rewrite assignRef_absent in Hassign by done;
          injection Hassign as <- <-; by exists fs, evs
        | rewrite assignRef_fn in Hassign;
          destruct (fn_body h f None (world s)) as [out w] eqn:Hbody;
          simpl in Hassign; injection Hassign as -> <-; simpl in *;
          exists (f :: fs), (EvCall f None (Ok r) :: evs);
          split_and!;
          [ by apply prefix_cons
          | by rewrite Htrace, <- app_assoc
          | constructor; [unfold detach_call; rewrite Hget; eauto | done]
          | by apply detach_ends_as_cons ]
        | rewrite assignRef_obj in Hassign; injection Hassign as <- <-;
          by exists fs, evs ].
      * destruct (Hinv _ _ Hget) as [f ->]; [done|].
        rewrite (detach_step_cleanup _ _ _ Hget), call_cleanup_run in Hstep.
        destruct (cleanup_body h c (world s)) as [out w] eqn:Hbody.
        simpl in Hstep. injection Hstep as -> <-. simpl in *.
        exists (f :: fs), (EvCleanup c (Ok tt) :: evs). split_and!.
        -- by apply prefix_cons.
        -- by rewrite Htrace, <- app_assoc.
        -- constructor; [unfold detach_call; rewrite Hget; eauto | done].
        -- by apply detach_ends_as_cons.
      * by rewrite (detach_step_not_callable _ _ Hget) in Hstep.
    + rewrite (bind_throw_run _ _ _ _ _ Hstep).
      apply detach_step_throw_inv in Hstep
        as [(f & -> & Hfalsy & Hbody & ->)
           | [(c & Hget & Hbody & ->) | (Hget & -> & ->)]]; simpl.
      * exists [f], [EvCall f None (Throw e)]. split_and!.
        -- apply prefix_cons, prefix_nil.
        -- done.
        -- repeat constructor. unfold detach_call.
           destruct (cleanupMap s !! RefFn f) as [[| |c|[]]|]; eauto; done.
        -- left. exists [], (EvCall f None (Throw e)). by split_and!.
      * destruct (Hinv _ _ Hget) as [f ->]; [done|].
        exists [f], [EvCleanup c (Throw e)]. split_and!.
        -- apply prefix_cons, prefix_nil.
        -- done.
        -- repeat constructor. unfold detach_call. rewrite Hget. eauto.
        -- left. exists [], (EvCleanup c (Throw e)). by split_and!.
      * destruct (Hinv _ _ Hget) as [g ->]; [done|].
        exists [], []. rewrite app_nil_r. split_and!.
        -- apply prefix_nil.
        -- done.
        -- constructor.
        -- right. split_and!; [constructor | done |].
           exists g. split; [apply prefix_cons, prefix_nil | done].
Qed.

(** X3: for any list refs, in a state whose cleanupMap holds nothing but
    null under a ref that is not a callback (every state an instance
    reaches): a detach goes through the callbacks of refs in order and, by
    what cleanupMap holds under the callback f at the start of the detach,
    calls the stored function c(), or calls f(null) when the stored value
    is not truthy or there is none, never both.  It stops at the first call
    that throws, throwing the same; and at the first callback under which
    the stored value is truthy and not a function it makes no call and
    throws the TypeError of line 33.  If it returns, it made one call for
    every callback of refs and all of them returned. *)
Theorem detach_calls refs s :
  only_callbacks_have_values (cleanupMap s) →
  ∃ fs evs,
    fs `prefix_of` callbacks_of refs ∧
    trace (mergeRefs h refs None s).2 = trace s ++ evs ∧
    Forall2 (detach_call (cleanupMap s)) fs evs ∧
    detach_ends_as h (cleanupMap s) (callbacks_of refs)
      (mergeRefs h refs None s).1 fs evs.
Proof.
  intros Hinv.
  destruct (forEach_detach_calls refs s Hinv)
    as (fs & evs & Hprefix & Htrace & Hcalls & Hend).
  exists fs, evs. cbn [mergeRefs]. unfold bind.
  destruct (forEach (detach_step h) refs s) as [[[]|e] s1];
    cbn [fst snd] in *; by split_and!.
Qed.

(* --------------------------------------------------------------------- *)
(* A callback that is in the list more than once                          *)
(* --------------------------------------------------------------------- *)

Lemma Forall2_choice {A B} (P : A → B → Prop) (l : list A) :
  (∀ x, x ∈ l → ∃ y, P x y) → ∃ k, Forall2 P l k.
Proof.
  induction l as [|x l IH]; intros Hex.
  - exists []. constructor.
  - destruct (Hex x ltac:(left)) as [y Hy].
    destruct IH as [k Hk]; [intros; apply Hex; by right|].
    exists (y :: k). by constructor.
Qed.

Lemma last_capture_notin (fs : list nat) (cs : list Cleanup) f :
  f ∉ fs → last_capture fs cs f = None.
Proof.
  revert cs. induction fs as [|g fs IH]; intros [|c cs] Hf; try done.
  apply not_elem_of_cons in Hf as [Hne Hnotin]. simpl.
  rewrite (IH cs Hnotin). by rewrite decide_False by done.
Qed.

Lemma last_capture_is_Some (fs : list nat) (cs : list Cleanup) f :
  length cs = length fs → f ∈ fs →
  ∃ c, last_capture fs cs f = Some c ∧ c ∈ cs.
Proof.
  revert cs. induction fs as [|g fs IH]; intros [|c cs] Hlen Hf;
    try discriminate; [by apply elem_of_nil in Hf|].
  simpl. destruct (decide (f ∈ fs)) as [Hin|Hnotin].
  - destruct (IH cs ltac:(by injection Hlen) Hin) as (c' & -> & Hc').
    exists c'. split; [done | by right].
  - apply elem_of_cons in Hf as [->|?]; [|done].
    rewrite (last_capture_notin _ _ _ Hnotin), decide_True by done.
    exists c. split; [done | left].
Qed.

Lemma attach_returns_cleanup_last fs v s :
  Forall (returns_cleanup h) fs →
  ∃ cs s1,
    forEach (attach_step h (Some v)) (RefFn <$> fs) s = (Ok tt, s1) ∧
    length cs = length fs ∧
    Forall (cleanup_returns h) cs ∧
    trace s1 =
      trace s ++ zip_with (λ f c, EvCall f (Some v) (Ok (JFun c))) fs cs ∧
    ∀ f, cleanupMap s1 !! RefFn f =
           match last_capture fs cs f with
           | Some c => Some (JFun c)
           | None => cleanupMap s !! RefFn f
           end.
Proof.
  intros Hfs. revert s. induction Hfs as [|g fs Hg _ IH]; intros s.
  - exists [], s. simpl. rewrite app_nil_r.
    split_and!; [done | done | constructor | done | done].
  - destruct (Hg v (world s)) as (c & w & Hbody & Hc).
    pose proof (attach_step_fn _ _ _ _ _ Hbody) as Hstep. simpl in Hstep.
    destruct (IH (mkState (<[RefFn g := JFun c]> (cleanupMap s)) w
                    (trace s ++ [EvCall g (Some v) (Ok (JFun c))])))
      as (cs & s1 & Hrun & Hlen & Hcs & Htrace & Hmap).
    simpl in Htrace, Hmap.
    exists (c :: cs), s1. split_and!.
    + simpl. by rewrite (bind_ok_run _ _ _ _ _ Hstep).
    + simpl. by rewrite Hlen.
    + by constructor.
    + by rewrite Htrace, <- app_assoc.
    + intros f. rewrite Hmap. simpl.
      destruct (last_capture fs cs f); [done|].
      destruct (decide (g = f)) as [->|Hne].
      * by rewrite lookup_insert_eq.
      * rewrite lookup_insert_ne; [done | congruence].
Qed.

(** X4: for any list fs of callbacks that return cleanup functions, a
    callback possibly several times in it: the attach calls every element
    once, in order, the i-th call returning cs !! i; cleanupMap then holds,
    under each callback, the function returned at its last position in fs;
    and the detach calls, for each element of fs in order, the function
    stored under that callback.  So a callback that is in fs n times has
    the function of its last call called n times, and the functions of its
    earlier calls are not called. *)
Theorem repeated_callback_last_capture fs v s :
  Forall (returns_cleanup h) fs →
  ∃ cs s1,
    mergeRefs h (RefFn <$> fs) (Some v) s = (Ok tt, s1) ∧
    length cs = length fs ∧
    trace s1 =
      trace s ++ zip_with (λ f c, EvCall f (Some v) (Ok (JFun c))) fs cs ∧
    (∀ f, f ∈ fs →
       cleanupMap s1 !! RefFn f = JFun <$> last_capture fs cs f) ∧
    ∀ w, ∃ s2 cs',
      mergeRefs h (RefFn <$> fs) None (mkState (cleanupMap s1) w (trace s1))
        = (Ok tt, s2) ∧
      Forall2 (λ f c', last_capture fs cs f = Some c') fs cs' ∧
      trace s2 = trace s1 ++ ((λ c', EvCleanup c' (Ok tt)) <$> cs').
Proof.
  intros Hfs.
  destruct (attach_returns_cleanup_last fs v s Hfs)
    as (cs & s1 & Hrun1 & Hlen & Hcs & Htrace1 & Hmap).
  assert (∀ f, f ∈ fs →
    ∃ c, last_capture fs cs f = Some c ∧ cleanup_returns h c ∧
         cleanupMap s1 !! RefFn f = Some (JFun c)) as Hstored.
  { intros f Hf.
    destruct (last_capture_is_Some fs cs f Hlen Hf) as (c & Hlast & Hc).
    exists c. split_and!; [done | | by rewrite Hmap, Hlast].
    by apply (proj1 (Forall_forall _ _) Hcs). }
  exists cs, s1. split_and!; [done | done | done | |].
  - intros f Hf. destruct (Hstored f Hf) as (c & -> & _ & ->). done.
  - intros w.
    destruct (Forall2_choice
      (λ f c', last_capture fs cs f = Some c' ∧ cleanup_returns h c' ∧
               cleanupMap s1 !! RefFn f = Some (JFun c')) fs Hstored)
      as [cs' Hcs'].
    destruct (detach_stored_cleanups fs cs'
                (mkState (cleanupMap s1) w (trace s1)))
      as (s2 & Hrun2 & Htrace2 & _).
    { eapply Forall2_impl; [exact Hcs'|]. by intros f c' (_ & _ & ?). }
    { apply (Forall2_Forall_r _ _ _ _ Hcs'). apply Forall_forall.
      by intros f _ c' (_ & ? & _). }
    exists (mkState ∅ (world s2) (trace s2)), cs'. split_and!.
    + simpl. by rewrite (bind_ok_run _ _ _ _ _ Hrun2).
    + eapply Forall2_impl; [exact Hcs'|]. by intros f c' (? & _).
    + done.
Qed.

(* --------------------------------------------------------------------- *)
(* What cleanupMap can hold                                               *)
(* --------------------------------------------------------------------- *)

Lemma forEach_invariant_in {A} (P : State T U Exn Cleanup → Prop)
    (cb : A → M unit) l s :
  (∀ x s, x ∈ l → P s → P (cb x s).2) → P s → P (forEach cb l s).2.
Proof.
  revert s. induction l as [|x l IH]; intros s Hcb Hs; simpl; [done|].
  unfold bind. pose proof (Hcb x s ltac:(left) Hs) as Hx.
  destruct (cb x s) as [[[]|e] s1]; simpl in *; [|done].
  apply IH; [|done]. intros y s' Hy. apply Hcb. by right.
Qed.

Lemma assignRef_trace ref value s :
  ∃ evs, trace (assignRef h ref value s).2 = trace s ++ evs.
Proof.
  destruct ref as [| |f|o].
  1,2,4: exists []; simpl; by rewrite app_nil_r.
  rewrite assignRef_fn. by eexists.
Qed.

Lemma detach_step_trace ref s :
  ∃ evs, trace (detach_step h ref s).2 = trace s ++ evs.
Proof.
  destruct (cleanupMap s !! ref) as [[| |c|[]]|] eqn:Hget.
  1,2,5,6: rewrite detach_step_fallback by (by rewrite Hget);
    unfold bind; destruct (assignRef_trace ref None s) as [evs Hevs];
    exists evs; by destruct (assignRef h ref None s) as [[?|?] ?].
  - rewrite (detach_step_cleanup _ _ _ Hget), call_cleanup_run. by eexists.
  - rewrite (detach_step_not_callable _ _ Hget). exists [].
    by rewrite app_nil_r.
Qed.

Lemma forEach_detach_trace refs s :
  ∃ evs, trace (forEach (detach_step h) refs s).2 = trace s ++ evs.
Proof.
  apply (forEach_invariant (λ s', ∃ evs, trace s' = trace s ++ evs)).
  - intros ref s' [evs Hevs].
    destruct (detach_step_trace ref s') as [evs' Hevs'].
    exists (evs ++ evs'). by rewrite Hevs', Hevs, app_assoc.
  - exists []. by rewrite app_nil_r.
Qed.

(** X5: in every state an instance over refs can be in, an entry of
    cleanupMap has a key that is an element of refs and a value that is
    never undefined; and a value other than null, a function or not, is
    stored only under a callback, and is what this callback returned from
    a call with a value that is not null, recorded in the trace. *)
Theorem registry_invariant refs s :
  reachable h refs s →
  ∀ ref x, cleanupMap s !! ref = Some x →
    ref ∈ refs ∧ x ≠ JUndefined ∧
    (x ≠ JNull →
     ∃ f v, ref = RefFn f ∧ EvCall f (Some v) (Ok x) ∈ trace s).
Proof.
  induction 1 as [w tr | s node _ IH | s w _ IH].
  - intros ref x. simpl. unfold new_cleanupMap. by rewrite lookup_empty.
  - destruct node as [v|]; simpl.
    + apply (forEach_invariant_in (λ s',
        ∀ ref x, cleanupMap s' !! ref = Some x →
          ref ∈ refs ∧ x ≠ JUndefined ∧
          (x ≠ JNull →
           ∃ f v, ref = RefFn f ∧ EvCall f (Some v) (Ok x) ∈ trace s')));
        [|done].
      clear s IH. intros ref s Href IH.
      destruct (assignRef_trace ref (Some v) s) as [evs Hevs].
      destruct (assignRef h ref (Some v) s) as [[r|e] s1] eqn:Hassign;
        simpl in Hevs.
      * rewrite (attach_step_ok _ _ _ _ _ Hassign). simpl. intros ref' x.
        destruct (decide (ref = ref')) as [<-|Hne].
        -- rewrite lookup_insert_eq. intros [= <-].
           split_and!; [done | by destruct r |].
           intros Hx.
           assert (nullish r JNull = r ∧ r ≠ JUndefined) as [-> Hr]
             by (by destruct r).
           destruct (assignRef_value_inv _ _ _ _ _ Hassign Hr) as [f ->].
           exists f, v. split; [done|].
           rewrite assignRef_fn in Hassign.
           destruct (fn_body h f (Some v) (world s)) as [out w].
           simpl in Hassign. injection Hassign as -> <-. simpl.
           apply elem_of_app. right. left.
        -- rewrite lookup_insert_ne by done. intros Hget.
           destruct (IH _ _ Hget) as (Hin & Hdef & Hval).
           split_and!; [done..|]. intros Hx.
           destruct (Hval Hx) as (f & v' & -> & Hev).
           exists f, v'. split; [done|]. rewrite Hevs.
           apply elem_of_app. by left.
      * rewrite (attach_step_throw _ _ _ _ _ Hassign).
        pose proof (assignRef_cleanupMap ref (Some v) s) as Hmap.
        rewrite Hassign in Hmap. simpl in *. rewrite Hmap.
        intros ref' x Hget. destruct (IH _ _ Hget) as (Hin & Hdef & Hval).
        split_and!; [done..|]. intros Hx.
        destruct (Hval Hx) as (f & v' & -> & Hev).
        exists f, v'. split; [done|]. rewrite Hevs.
        apply elem_of_app. by left.
    + unfold bind. pose proof (forEach_detach_cleanupMap refs s) as Hmap.
      destruct (forEach_detach_trace refs s) as [evs Hevs].
      destruct (forEach (detach_step h) refs s) as [[[]|e] s1]; simpl in *.
      * intros ref x. by rewrite lookup_empty.
      * rewrite Hmap. intros ref x Hget.
        destruct (IH _ _ Hget) as (Hin & Hdef & Hval).
        split_and!; [done..|]. intros Hx.
        destruct (Hval Hx) as (f & v' & -> & Hev).
        exists f, v'. split; [done|]. rewrite Hevs.
        apply elem_of_app. by left.
  - done.
Qed.

(* --------------------------------------------------------------------- *)
(* An attach does not read cleanupMap                                     *)
(* --------------------------------------------------------------------- *)

Lemma assignRef_same ref value s s' :
  world s = world s' → trace s = trace s' →
  (assignRef h ref value s).1 = (assignRef h ref value s').1 ∧
  world (assignRef h ref value s).2 = world (assignRef h ref value s').2 ∧
  trace (assignRef h ref value s).2 = trace (assignRef h ref value s').2.
Proof.
  intros Hworld Htrace. destruct ref as [| |f|o]; try done.
  - rewrite !assignRef_fn. simpl. by rewrite Hworld, Htrace.
  - rewrite !assignRef_obj. simpl. by rewrite Hworld.
Qed.

Lemma forEach_attach_same node refs s s' :
  world s = world s' → trace s = trace s' →
  (forEach (attach_step h node) refs s).1 =
    (forEach (attach_step h node) refs s').1 ∧
  world (forEach (attach_step h node) refs s).2 =
    world (forEach (attach_step h node) refs s').2 ∧
  trace (forEach (attach_step h node) refs s).2 =
    trace (forEach (attach_step h node) refs s').2 ∧
  ((forEach (attach_step h node) refs s).1 = Ok tt →
   ∀ ref, ref ∈ refs →
     cleanupMap (forEach (attach_step h node) refs s).2 !! ref =
       cleanupMap (forEach (attach_step h node) refs s').2 !! ref).
Proof.
  revert s s'. induction refs as [|ref refs IH]; intros s s' Hworld Htrace.
  - split_and!; [done..|]. by intros _ ref ?%elem_of_nil.
  - cbn [forEach].
    destruct (assignRef_same ref node s s' Hworld Htrace)
      as (Hout & Hworld1 & Htrace1).
    destruct (assignRef h ref node s) as [[r|e] s1] eqn:Hassign,
             (assignRef h ref node s') as [[r'|e'] s1'] eqn:Hassign';
      simpl in Hout, Hworld1, Htrace1; try discriminate.
    + injection Hout as <-.
      rewrite (bind_ok_run _ _ _ _ _ (attach_step_ok _ _ _ _ _ Hassign)).
      rewrite (bind_ok_run _ _ _ _ _ (attach_step_ok _ _ _ _ _ Hassign')).
      set (t := mkState (<[ref := nullish r JNull]> (cleanupMap s))
                  (world s1) (trace s1)).
      set (t' := mkState (<[ref := nullish r JNull]> (cleanupMap s'))
                   (world s1') (trace s1')).
      destruct (IH t t' Hworld1 Htrace1) as (Ho & Hw & Ht & Hm).
      split_and!; [done..|]. intros Hok ref' Href'.
      destruct (decide (ref' ∈ refs)) as [Hin|Hnotin]; [by apply Hm|].
      apply elem_of_cons in Href' as [->|?]; [|done].
      destruct (forEach (attach_step h node) refs t) as [out u] eqn:Hrun.
      destruct (forEach (attach_step h node) refs t') as [out' u'] eqn:Hrun'.
      simpl in *. subst out out'.
      rewrite (proj2 (forEach_attach_lookup _ _ _ _ ref Hrun) Hnotin).
      rewrite (proj2 (forEach_attach_lookup _ _ _ _ ref Hrun') Hnotin).
      simpl. by rewrite !lookup_insert_eq.
    + injection Hout as <-.
      rewrite (bind_throw_run _ _ _ _ _ (attach_step_throw _ _ _ _ _ Hassign)).
      rewrite (bind_throw_run _ _ _ _ _ (attach_step_throw _ _ _ _ _ Hassign')).
      by split_and!.
Qed.

Lemma reachable_keys refs s ref :
  reachable h refs s → is_Some (cleanupMap s !! ref) → ref ∈ refs.
Proof.
  induction 1 as [w tr | s node _ IH | s w _ IH]; [| |done].
  - simpl. unfold new_cleanupMap. rewrite lookup_empty. by intros [? ?].
  - destruct node as [v|]; simpl.
    + destruct (decide (ref ∈ refs)) as [|Hnotin]; [done|].
      destruct (forEach (attach_step h (Some v)) refs s) as [out s1] eqn:Hrun.
      revert s out s1 Hrun IH.
      assert (∀ l s out s1,
        forEach (attach_step h (Some v)) l s = (out, s1) → ref ∉ l →
        cleanupMap s1 !! ref = cleanupMap s !! ref) as Hkeep.
      { induction l as [|r l IHl]; intros s out s1; simpl.
        - by intros [= _ <-].
        - intros Hrun [Hne Hl]%not_elem_of_cons.
          destruct (assignRef h r (Some v) s) as [[x|e] s2] eqn:Hassign.
          + rewrite (bind_ok_run _ _ _ _ _
                       (attach_step_ok _ _ _ _ _ Hassign)) in Hrun.
            rewrite (IHl _ _ _ Hrun Hl). simpl.
            by rewrite lookup_insert_ne.
          + rewrite (bind_throw_run _ _ _ _ _
                       (attach_step_throw _ _ _ _ _ Hassign)) in Hrun.
            injection Hrun as _ <-.
            pose proof (assignRef_cleanupMap r (Some v) s) as Hmap.
            rewrite Hassign in Hmap. simpl in Hmap. by rewrite Hmap. }
      intros s out s1 Hrun IH. simpl.
      rewrite (Hkeep _ _ _ _ Hrun Hnotin). exact IH.
    + unfold bind. pose proof (forEach_detach_cleanupMap refs s) as Hmap.
      destruct (forEach (detach_step h) refs s) as [[[]|e] s1]; simpl in *.
      * rewrite lookup_empty. by intros [? ?].
      * by rewrite Hmap.
Qed.

(** X6: an attach does not read cleanupMap, and one that returns rewrites
    every entry a state of the instance can have.  In every state s an
    instance over refs can be in (after a detach that threw and cleared
    nothing, after an attach with no detach since), an attach has the
    outcome, the heap and the calls it has on a new instance in the same
    heap; and if it returns, the whole state is the one the new instance
    reaches, so whatever s held in cleanupMap has no effect on anything
    that follows. *)
Theorem attach_forgets_registry refs v s :
  reachable h refs s →
  (mergeRefs h refs (Some v) s).1 =
    (mergeRefs h refs (Some v) (fresh (world s) (trace s))).1 ∧
  world (mergeRefs h refs (Some v) s).2 =
    world (mergeRefs h refs (Some v) (fresh (world s) (trace s))).2 ∧
  trace (mergeRefs h refs (Some v) s).2 =
    trace (mergeRefs h refs (Some v) (fresh (world s) (trace s))).2 ∧
  ((mergeRefs h refs (Some v) s).1 = Ok tt →
   mergeRefs h refs (Some v) s =
     mergeRefs h refs (Some v) (fresh (world s) (trace s))).
Proof.
  intros Hreach. simpl.
  destruct (forEach_attach_same (Some v) refs s (fresh (world s) (trace s))
              eq_refl eq_refl) as (Hout & Hworld & Htrace & Hmap).
  split_and!; [done..|]. intros Hok. specialize (Hmap Hok).
  destruct (forEach (attach_step h (Some v)) refs s) as [out s1] eqn:Hrun.
  destruct (forEach (attach_step h (Some v)) refs (fresh (world s) (trace s)))
    as [out' s1'] eqn:Hrun'.
  simpl in *. subst out out'. f_equal.
  destruct s1 as [m1 w1 t1], s1' as [m1' w1' t1']. simpl in *.
  subst w1' t1'. f_equal. apply map_eq. intros ref.
  destruct (decide (ref ∈ refs)) as [Hin|Hnotin]; [by apply Hmap|].
  pose proof (proj2 (forEach_attach_lookup _ _ _ _ ref Hrun) Hnotin) as H1.
  pose proof (proj2 (forEach_attach_lookup _ _ _ _ ref Hrun') Hnotin) as H2.
  simpl in H1, H2. rewrite H1, H2. unfold new_cleanupMap.
  rewrite lookup_empty.
  destruct (cleanupMap s !! ref) as [x|] eqn:Hget; [|done].
  destruct Hnotin. apply (reachable_keys refs s ref Hreach). by rewrite Hget.
Qed.

(** X8: after a detach that returns, the functions captured at the attach
    are gone: another detach with no attach in between, in whatever heap,
    calls no cleanup function; its calls are f(null) for the callbacks of
    refs, in order, up to and including the first that throws. *)
Theorem cleanup_not_called_again refs s s2 w :
  mergeRefs h refs None s = (Ok tt, s2) →
  ∃ fs evs,
    fs `prefix_of` callbacks_of refs ∧
    trace (mergeRefs h refs None (mkState (cleanupMap s2) w (trace s2))).2
      = trace s2 ++ evs ∧
    Forall2 (λ f ev, ∃ out, ev = EvCall f None out) fs evs ∧
    calls_end_as
      (mergeRefs h refs None (mkState (cleanupMap s2) w (trace s2))).1 evs.
Proof.
  intros Hrun. apply mergeRefs_detach_ok_inv in Hrun as (s1 & _ & ->).
  set (s3 := mkState (cleanupMap (mkState ∅ (world s1) (trace s1))) w
               (trace (mkState ∅ (world s1) (trace s1)))).
  destruct (forEach_detach_calls refs s3)
    as (fs & evs & Hprefix & Htrace & Hcalls & Hend).
  { intros ref x. simpl. by rewrite lookup_empty. }
  exists fs, evs. simpl in *. unfold bind.
  split_and!; [done | | |].
  - fold s3. by destruct (forEach (detach_step h) refs s3) as [[[]|e] u].
  - eapply Forall2_impl; [exact Hcalls|]. intros f ev.
    unfold detach_call. by rewrite lookup_empty.
  - fold s3. destruct (forEach (detach_step h) refs s3) as [[[]|e] u];
      simpl in *; [by destruct Hend|].
    destruct Hend as [Hend|(_ & _ & g & _ & Hget)]; [done|].
    by rewrite lookup_empty in Hget.
Qed.

End Facts.

(* ===================================================================== *)
(* A merged ref among the refs of another instance                        *)
(* ===================================================================== *)

Section NestedFacts.

Context {T U Exn Cleanup : Type} (h : Host T U Exn Cleanup).
Context (m : nat) (inner : list PossibleRef).
Implicit Types s : State T U Exn Cleanup.
Implicit Types t : State T (Nested T U Exn Cleanup) Exn Cleanup.
Implicit Types ref : PossibleRef.

Local Abbreviation h' := (nested_host h m inner).

(* One of the callers' own refs, handled by the outer instance. *)

Lemma assignRef_outer ref value t :
  ref ≠ RefFn m →
  (assignRef h' ref value t).1 = (assignRef h ref value (outer_view t)).1 ∧
  outer_view (assignRef h' ref value t).2 =
    (assignRef h ref value (outer_view t)).2 ∧
  inner_cleanupMap (user (world (assignRef h' ref value t).2)) =
    inner_cleanupMap (user (world t)).
Proof.
  intros Hne. destruct t as [om [cs [im lg u]] tr'].
  destruct ref as [| |f|o]; try done.
  rewrite !assignRef_fn. simpl. unfold nested_fn.
  rewrite decide_False by congruence.
  unfold call_fn, inner_state. simpl.
  by destruct (fn_body h f value (mkWorld cs u)) as [out [cs1 u1]].
Qed.

Lemma step_outer node ref t :
  ref ≠ RefFn m →
  (step h' node ref t).1 = (step h node ref (outer_view t)).1 ∧
  outer_view (step h' node ref t).2 = (step h node ref (outer_view t)).2 ∧
  inner_cleanupMap (user (world (step h' node ref t).2)) =
    inner_cleanupMap (user (world t)).
Proof.
  intros Hne.
  destruct node as [v|]; simpl.
  - destruct (assignRef_outer ref (Some v) t Hne) as (Hout & Hview & Hinner).
    unfold attach_step, bind, map_set.
    destruct (assignRef h' ref (Some v) t) as [[r|e] t1],
      (assignRef h ref (Some v) (outer_view t)) as [[r0|e0] s1];
      simpl in *; try discriminate.
    + injection Hout as ->. subst s1. split; [done|]. split; [reflexivity | done].
    + injection Hout as ->. by split_and!.
  - destruct (cleanupMap t !! ref) as [[| |c|[]]|] eqn:Hget.
    1,2,5,6: rewrite (detach_step_fallback h' ref t) by (by rewrite Hget);
      rewrite (detach_step_fallback h ref (outer_view t))
        by (simpl; by rewrite Hget);
      destruct (assignRef_outer ref None t Hne) as (Hout & Hview & Hinner);
      unfold bind;
      destruct (assignRef h' ref None t) as [[r|e] t1],
        (assignRef h ref None (outer_view t)) as [[r0|e0] s1];
      simpl in *; try discriminate; simplify_eq; by split_and!.
    + rewrite (detach_step_cleanup h' ref t c Hget).
      rewrite (detach_step_cleanup h ref (outer_view t) c Hget).
      rewrite !call_cleanup_run. destruct t as [om [cs [im lg u]] tr'].
      simpl. unfold nested_cleanup, call_cleanup, inner_state. simpl.
      by destruct (cleanup_body h c (mkWorld cs u)) as [out [cs1 u1]].
    + rewrite (detach_step_not_callable h' ref t Hget).
      by rewrite (detach_step_not_callable h ref (outer_view t) Hget).
Qed.

Lemma forEach_outer node refs t :
  RefFn m ∉ refs →
  (forEach (step h' node) refs t).1 =
    (forEach (step h node) refs (outer_view t)).1 ∧
  outer_view (forEach (step h' node) refs t).2 =
    (forEach (step h node) refs (outer_view t)).2 ∧
  inner_cleanupMap (user (world (forEach (step h' node) refs t).2)) =
    inner_cleanupMap (user (world t)).
Proof.
  revert t. induction refs as [|ref refs IH]; intros t Hm; [done|].
  apply not_elem_of_cons in Hm as [Hne Hm]. cbn [forEach].
  destruct (step_outer node ref t ltac:(congruence))
    as (Hout & Hview & Hinner).
  destruct (step h' node ref t) as [[[]|e] t1] eqn:Hstep',
    (step h node ref (outer_view t)) as [[[]|e0] s1] eqn:Hstep;
    simpl in *; try discriminate.
  - rewrite (bind_ok_run _ _ _ _ _ Hstep'), (bind_ok_run _ _ _ _ _ Hstep).
    subst s1. rewrite <- Hinner. by apply IH.
  - rewrite (bind_throw_run _ _ _ _ _ Hstep'),
      (bind_throw_run _ _ _ _ _ Hstep). by split_and!.
Qed.

(* Two states of the callers' host with the same heap and calls. *)

Lemma step_agree node ref s1 s2 :
  world s1 = world s2 → trace s1 = trace s2 →
  cleanupMap s1 !! ref = cleanupMap s2 !! ref →
  (step h node ref s1).1 = (step h node ref s2).1 ∧
  world (step h node ref s1).2 = world (step h node ref s2).2 ∧
  trace (step h node ref s1).2 = trace (step h node ref s2).2 ∧
  (∀ ref', cleanupMap s1 !! ref' = cleanupMap s2 !! ref' →
     cleanupMap (step h node ref s1).2 !! ref' =
       cleanupMap (step h node ref s2).2 !! ref') ∧
  (∀ ref', ref' ≠ ref →
     cleanupMap (step h node ref s1).2 !! ref' = cleanupMap s1 !! ref' ∧
     cleanupMap (step h node ref s2).2 !! ref' = cleanupMap s2 !! ref').
Proof.
  intros Hworld Htrace Hget. destruct node as [v|]; simpl.
  - destruct (assignRef_same h ref (Some v) s1 s2 Hworld Htrace)
      as (Hout & Hw & Ht).
    pose proof (assignRef_cleanupMap h ref (Some v) s1) as Hm1.
    pose proof (assignRef_cleanupMap h ref (Some v) s2) as Hm2.
    destruct (assignRef h ref (Some v) s1) as [[r|e] u1] eqn:Ha1,
      (assignRef h ref (Some v) s2) as [[r'|e'] u2] eqn:Ha2;
      simpl in *; try discriminate; simplify_eq.
    + rewrite (attach_step_ok h _ _ _ _ _ Ha1), (attach_step_ok h _ _ _ _ _ Ha2).
      simpl. split_and!; [done..| |].
      * intros ref' Hagree. destruct (decide (ref = ref')) as [->|Hne].
        -- by rewrite !lookup_insert_eq.
        -- by rewrite !lookup_insert_ne.
      * intros ref' Hne. by rewrite !lookup_insert_ne.
    + rewrite (attach_step_throw h _ _ _ _ _ Ha1),
        (attach_step_throw h _ _ _ _ _ Ha2).
      simpl. rewrite Hm1, Hm2. by split_and!.
  - pose proof (detach_step_cleanupMap h ref s1) as Hm1.
    pose proof (detach_step_cleanupMap h ref s2) as Hm2.
    rewrite Hm1, Hm2.
    assert ((detach_step h ref s1).1 = (detach_step h ref s2).1 ∧
            world (detach_step h ref s1).2 = world (detach_step h ref s2).2 ∧
            trace (detach_step h ref s1).2 = trace (detach_step h ref s2).2)
      as (Hout & Hw & Ht); [|by split_and!].
    destruct (cleanupMap s2 !! ref) as [[| |c|[]]|] eqn:Hget2.
    1,2,5,6: rewrite (detach_step_fallback h ref s1) by (by rewrite Hget);
      rewrite (detach_step_fallback h ref s2) by (by rewrite Hget2);
      destruct (assignRef_same h ref None s1 s2 Hworld Htrace)
        as (Hout & Hw & Ht);
      unfold bind;
      destruct (assignRef h ref None s1) as [[?|?] ?],
        (assignRef h ref None s2) as [[?|?] ?];
      simpl in *; try discriminate; simplify_eq; by split_and!.
    + rewrite (detach_step_cleanup h ref s1 c Hget).
      rewrite (detach_step_cleanup h ref s2 c Hget2).
      rewrite !call_cleanup_run. simpl. by rewrite Hworld, Htrace.
    + rewrite (detach_step_not_callable h ref s1 Hget).
      by rewrite (detach_step_not_callable h ref s2 Hget2).
Qed.

Lemma forEach_agree node refs s1 s2 :
  world s1 = world s2 → trace s1 = trace s2 →
  (∀ ref, ref ∈ refs → cleanupMap s1 !! ref = cleanupMap s2 !! ref) →
  (forEach (step h node) refs s1).1 = (forEach (step h node) refs s2).1 ∧
  world (forEach (step h node) refs s1).2 =
    world (forEach (step h node) refs s2).2 ∧
  trace (forEach (step h node) refs s1).2 =
    trace (forEach (step h node) refs s2).2 ∧
  (∀ ref', cleanupMap s1 !! ref' = cleanupMap s2 !! ref' →
     cleanupMap (forEach (step h node) refs s1).2 !! ref' =
       cleanupMap (forEach (step h node) refs s2).2 !! ref') ∧
  (∀ ref', ref' ∉ refs →
     cleanupMap (forEach (step h node) refs s1).2 !! ref' =
       cleanupMap s1 !! ref' ∧
     cleanupMap (forEach (step h node) refs s2).2 !! ref' =
       cleanupMap s2 !! ref').
Proof.
  revert s1 s2. induction refs as [|ref refs IH];
    intros s1 s2 Hworld Htrace Hagree; [done|].
  cbn [forEach].
  destruct (step_agree node ref s1 s2 Hworld Htrace (Hagree ref ltac:(left)))
    as (Hout & Hw & Ht & Hkeep & Hframe).
  destruct (step h node ref s1) as [[[]|e] u1] eqn:Hs1,
    (step h node ref s2) as [[[]|e'] u2] eqn:Hs2;
    simpl in *; try discriminate.
  - rewrite (bind_ok_run _ _ _ _ _ Hs1), (bind_ok_run _ _ _ _ _ Hs2).
    destruct (IH u1 u2 Hw Ht) as (Hout' & Hw' & Ht' & Hkeep' & Hframe').
    { intros ref' Href'. apply Hkeep, Hagree. by right. }
    split_and!; [done..| |].
    + intros ref' Href'. by apply Hkeep', Hkeep.
    + intros ref' [Hne Hnotin]%not_elem_of_cons.
      destruct (Hframe' ref' Hnotin) as [-> ->]. by apply Hframe.
  - rewrite (bind_throw_run _ _ _ _ _ Hs1), (bind_throw_run _ _ _ _ _ Hs2).
    simpl. split_and!; [done..|].
    intros ref' [Hne Hnotin]%not_elem_of_cons. by apply Hframe.
Qed.

(* The merged ref of inner, handled by the outer instance. *)

Lemma step_merged node t :
  truthy (default JUndefined (cleanupMap t !! RefFn m)) = false →
  (step h' node (RefFn m) t).1 =
    (mergeRefs h inner node (inner_state (world t))).1 ∧
  world (step h' node (RefFn m) t).2 =
    from_inner (mergeRefs h inner node (inner_state (world t))).2 ∧
  (∀ ref, ref ≠ RefFn m →
     cleanupMap (step h' node (RefFn m) t).2 !! ref = cleanupMap t !! ref) ∧
  truthy (default JUndefined
            (cleanupMap (step h' node (RefFn m) t).2 !! RefFn m)) = false.
Proof.
  intros Hfalsy.
  assert (∀ value,
    assignRef h' (RefFn m) value t =
      (match (mergeRefs h inner value (inner_state (world t))).1 with
       | Ok _ => Ok JUndefined
       | Throw e => Throw e
       end,
       mkState (cleanupMap t)
         (from_inner (mergeRefs h inner value (inner_state (world t))).2)
         (trace t ++
            [EvCall m value
               match (mergeRefs h inner value (inner_state (world t))).1 with
               | Ok _ => Ok JUndefined
               | Throw e => Throw e
               end])))
    as Hassign.
  { intros value. rewrite assignRef_fn. simpl. unfold nested_fn.
    rewrite decide_True by done.
    by destruct (mergeRefs h inner value (inner_state (world t))). }
  destruct node as [v|]; cbn [step].
  - specialize (Hassign (Some v)).
    destruct (mergeRefs h inner (Some v) (inner_state (world t)))
      as [[[]|e] s1]; cbn [fst snd] in *.
    + rewrite (attach_step_ok h' _ _ _ _ _ Hassign). simpl.
      split_and!; [done | done | |].
      * intros ref Hne. by rewrite lookup_insert_ne.
      * by rewrite lookup_insert_eq.
    + rewrite (attach_step_throw h' _ _ _ _ _ Hassign). by split_and!.
  - specialize (Hassign None).
    rewrite (detach_step_fallback h' _ _ Hfalsy). unfold bind.
    rewrite Hassign.
    destruct (mergeRefs h inner None (inner_state (world t)))
      as [[[]|e] s1]; by split_and!.
Qed.

Lemma inner_state_from_inner s : inner_state (from_inner s) = s.
Proof. by destruct s as [rm [cs u] tr]. Qed.

Lemma phase_outer node refs t s :
  RefFn m ∉ refs →
  world (inner_state (world t)) = world s →
  trace (inner_state (world t)) = trace s →
  (∀ ref, ref ∈ refs → cleanupMap t !! ref = cleanupMap s !! ref) →
  (forEach (step h' node) refs t).1 = (forEach (step h node) refs s).1 ∧
  world (inner_state (world (forEach (step h' node) refs t).2)) =
    world (forEach (step h node) refs s).2 ∧
  trace (inner_state (world (forEach (step h' node) refs t).2)) =
    trace (forEach (step h node) refs s).2 ∧
  inner_cleanupMap (user (world (forEach (step h' node) refs t).2)) =
    inner_cleanupMap (user (world t)) ∧
  (∀ ref, cleanupMap t !! ref = cleanupMap s !! ref →
     cleanupMap (forEach (step h' node) refs t).2 !! ref =
       cleanupMap (forEach (step h node) refs s).2 !! ref) ∧
  (∀ ref, ref ∉ refs →
     cleanupMap (forEach (step h' node) refs t).2 !! ref = cleanupMap t !! ref ∧
     cleanupMap (forEach (step h node) refs s).2 !! ref = cleanupMap s !! ref).
Proof.
  intros Hm Hworld Htrace Hagree.
  destruct (forEach_outer node refs t Hm) as (Hout & Hview & Hinner).
  destruct (forEach_agree node refs (outer_view t) s Hworld Htrace Hagree)
    as (Hout' & Hw & Ht & Hkeep & Hframe).
  rewrite <- Hview in Hw, Ht, Hkeep, Hframe.
  split_and!; [congruence | exact Hw | exact Ht | exact Hinner | exact Hkeep |].
  intros ref Href. apply (Hframe ref Href).
Qed.

Lemma phase_merged node t s :
  truthy (default JUndefined (cleanupMap t !! RefFn m)) = false →
  world (inner_state (world t)) = world s →
  trace (inner_state (world t)) = trace s →
  (∀ ref, ref ∈ inner →
     inner_cleanupMap (user (world t)) !! ref = cleanupMap s !! ref) →
  (step h' node (RefFn m) t).1 = (forEach (step h node) inner s).1 ∧
  world (inner_state (world (step h' node (RefFn m) t).2)) =
    world (forEach (step h node) inner s).2 ∧
  trace (inner_state (world (step h' node (RefFn m) t).2)) =
    trace (forEach (step h node) inner s).2 ∧
  (∀ ref, ref ≠ RefFn m →
     cleanupMap (step h' node (RefFn m) t).2 !! ref = cleanupMap t !! ref) ∧
  truthy (default JUndefined
            (cleanupMap (step h' node (RefFn m) t).2 !! RefFn m)) = false ∧
  (∀ ref, ref ∉ inner →
     cleanupMap (forEach (step h node) inner s).2 !! ref =
       cleanupMap s !! ref) ∧
  (node ≠ None → ∀ ref, ref ∈ inner →
     inner_cleanupMap (user (world (step h' node (RefFn m) t).2)) !! ref =
       cleanupMap (forEach (step h node) inner s).2 !! ref) ∧
  (node = None → (forEach (step h node) inner s).1 = Ok tt →
     inner_cleanupMap (user (world (step h' node (RefFn m) t).2)) = ∅).
Proof.
  intros Hfalsy Hworld Htrace Hagree.
  destruct (step_merged node t Hfalsy) as (Hout & Hw & Hother & Hfalsy').
  destruct (forEach_agree node inner (inner_state (world t)) s
              Hworld Htrace Hagree) as (Hout' & Hw' & Ht' & Hkeep & Hframe).
  rewrite Hout, Hw, inner_state_from_inner.
  change (inner_cleanupMap (user (from_inner ?x))) with (cleanupMap x).
  destruct node as [v|]; cbn [step mergeRefs] in *.
  - split_and!; [done..| | |done].
    + intros ref Href. apply (Hframe ref Href).
    + intros _ ref Href. by apply Hkeep, Hagree.
  - unfold bind.
    destruct (forEach (detach_step h) inner (inner_state (world t)))
      as [[[]|e] s1]; simpl in *.
    + split_and!; [done..| |done|done].
      intros ref Href. apply (Hframe ref Href).
    + split_and!; [done..| |done|].
      * intros ref Href. apply (Hframe ref Href).
      * intros _ Hok. by rewrite <- Hout' in Hok.
Qed.

Lemma forEach_nested pre post node t s :
  RefFn m ∉ pre ++ inner ++ post →
  (∀ ref, ref ∈ inner → ref ∉ pre ++ post) →
  nested_as_flat m inner (pre ++ post) t s →
  (forEach (step h' node) (pre ++ RefFn m :: post) t).1 =
    (forEach (step h node) (pre ++ inner ++ post) s).1 ∧
  world (inner_state
           (world (forEach (step h' node) (pre ++ RefFn m :: post) t).2)) =
    world (forEach (step h node) (pre ++ inner ++ post) s).2 ∧
  trace (inner_state
           (world (forEach (step h' node) (pre ++ RefFn m :: post) t).2)) =
    trace (forEach (step h node) (pre ++ inner ++ post) s).2 ∧
  ((forEach (step h node) (pre ++ inner ++ post) s).1 = Ok tt →
   (∀ ref, ref ∈ pre ++ post →
      cleanupMap (forEach (step h' node) (pre ++ RefFn m :: post) t).2 !! ref =
        cleanupMap (forEach (step h node) (pre ++ inner ++ post) s).2 !! ref) ∧
   truthy (default JUndefined
     (cleanupMap (forEach (step h' node) (pre ++ RefFn m :: post) t).2
        !! RefFn m)) = false ∧
   (node ≠ None → ∀ ref, ref ∈ inner →
      inner_cleanupMap
        (user (world (forEach (step h' node) (pre ++ RefFn m :: post) t).2))
        !! ref =
      cleanupMap (forEach (step h node) (pre ++ inner ++ post) s).2 !! ref) ∧
   (node = None →
      inner_cleanupMap
        (user (world (forEach (step h' node) (pre ++ RefFn m :: post) t).2))
        = ∅)).
Proof.
  intros Hm Hdisj (Hworld & Htrace & Hin & Hrest & Hfalsy).
  assert ((RefFn m ∉ pre) ∧ (RefFn m ∉ inner) ∧ (RefFn m ∉ post))
    as (Hm_pre & Hm_inner & Hm_post).
  { rewrite !not_elem_of_app in Hm. tauto. }
  assert (∀ ref, ref ∈ inner → (ref ∉ pre) ∧ (ref ∉ post)) as Hdisj'.
  { intros ref Href. specialize (Hdisj ref Href).
    by rewrite not_elem_of_app in Hdisj. }
  (* the refs before the merged ref *)
  destruct (phase_outer node pre t s Hm_pre Hworld Htrace)
    as (Hout1 & Hw1 & Ht1 & Hi1 & Hkeep1 & Hframe1).
  { intros ref Href. apply Hrest, elem_of_app. by left. }
  rewrite !forEach_app. cbn [forEach].
  destruct (forEach (step h' node) pre t) as [[[]|e1] t1] eqn:Hpre',
    (forEach (step h node) pre s) as [[[]|e1'] s1] eqn:Hpre;
    simpl in Hout1, Hw1, Ht1, Hi1, Hkeep1, Hframe1; try discriminate.
  2: { rewrite (bind_throw_run _ _ _ _ _ Hpre'), (bind_throw_run _ _ _ _ _ Hpre).
       by split_and!. }
  rewrite (bind_ok_run _ _ _ _ _ Hpre'), (bind_ok_run _ _ _ _ _ Hpre).
  assert (∀ ref, ref ∈ pre ++ post → cleanupMap t1 !! ref = cleanupMap s1 !! ref)
    as Hrest1 by (intros ref Href; by apply Hkeep1, Hrest).
  (* the merged ref *)
  destruct (phase_merged node t1 s1)
    as (Hout2 & Hw2 & Ht2 & Hother2 & Hfalsy2 & Hframe2 & Hin2 & Hempty2);
    [| done | done | |].
  { by rewrite (proj1 (Hframe1 _ Hm_pre)). }
  { intros ref Href. rewrite Hi1, (Hin ref Href).
    symmetry. apply Hframe1. by apply Hdisj'. }
  rewrite forEach_app.
  destruct (step h' node (RefFn m) t1) as [[[]|e2] t2] eqn:Hmid',
    (forEach (step h node) inner s1) as [[[]|e2'] s2] eqn:Hmid;
    simpl in Hout2, Hw2, Ht2, Hother2, Hfalsy2, Hframe2, Hin2, Hempty2;
    try discriminate.
  2: { rewrite (bind_throw_run _ _ _ _ _ Hmid'), (bind_throw_run _ _ _ _ _ Hmid).
       by split_and!. }
  rewrite (bind_ok_run _ _ _ _ _ Hmid'), (bind_ok_run _ _ _ _ _ Hmid).
  assert (∀ ref, ref ∈ pre ++ post → cleanupMap t2 !! ref = cleanupMap s2 !! ref)
    as Hrest2.
  { intros ref Href. rewrite Hother2, Hframe2.
    - by apply Hrest1.
    - intros Hinner. by apply (Hdisj ref Hinner).
    - intros ->. apply Hm. rewrite !elem_of_app in *. tauto. }
  (* the refs after the merged ref *)
  destruct (phase_outer node post t2 s2 Hm_post Hw2 Ht2)
    as (Hout3 & Hw3 & Ht3 & Hi3 & Hkeep3 & Hframe3).
  { intros ref Href. apply Hrest2, elem_of_app. by right. }
  split_and!; [done..|]. intros Hok. split_and!.
  - intros ref Href. by apply Hkeep3, Hrest2.
  - by rewrite (proj1 (Hframe3 _ Hm_post)).
  - intros Hnode ref Href. rewrite Hi3, (Hin2 Hnode ref Href).
    symmetry. apply Hframe3. by apply Hdisj'.
  - intros Hnode. rewrite Hi3. by apply Hempty2.
Qed.

(** X7: let the function mergeRefs(...inner) returns be given, as the
    callback m, among the refs of another instance, pre ++ [m] ++ post,
    where m is in none of the three lists and no ref of inner is in pre or
    post.  From states that correspond (as two new instances do), a call
    of the outer merged ref, with a value or with null, has the same
    outcome, leaves the same heap and makes the same calls of the callers'
    functions, in the same order, as the merged ref of the one list
    pre ++ inner ++ post; and if the call returns, the states correspond
    again. *)
Theorem nested_merge_flattens pre post node t s :
  RefFn m ∉ pre ++ inner ++ post →
  (∀ ref, ref ∈ inner → ref ∉ pre ++ post) →
  nested_as_flat m inner (pre ++ post) t s →
  (mergeRefs h' (pre ++ RefFn m :: post) node t).1 =
    (mergeRefs h (pre ++ inner ++ post) node s).1 ∧
  world (inner_state (world (mergeRefs h' (pre ++ RefFn m :: post) node t).2))
    = world (mergeRefs h (pre ++ inner ++ post) node s).2 ∧
  trace (inner_state (world (mergeRefs h' (pre ++ RefFn m :: post) node t).2))
    = trace (mergeRefs h (pre ++ inner ++ post) node s).2 ∧
  ((mergeRefs h (pre ++ inner ++ post) node s).1 = Ok tt →
   nested_as_flat m inner (pre ++ post)
     (mergeRefs h' (pre ++ RefFn m :: post) node t).2
     (mergeRefs h (pre ++ inner ++ post) node s).2).
Proof.
  intros Hm Hdisj Hrel.
  destruct (forEach_nested pre post node t s Hm Hdisj Hrel)
    as (Hout & Hw & Ht & Hok).
  destruct node as [v|]; cbn [mergeRefs step] in *.
  - split_and!; [done..|]. intros Hret.
    destruct (Hok Hret) as (Hrest & Hfalsy & Hin & _).
    split_and!; [done | done | | done | done].
    by apply Hin.
  - unfold bind.
    destruct (forEach (detach_step h') (pre ++ RefFn m :: post) t)
      as [[[]|e] t1],
      (forEach (detach_step h) (pre ++ inner ++ post) s) as [[[]|e'] s1];
      simpl in *; try discriminate; [|by split_and!].
    split_and!; [done..|]. intros _.
    destruct (Hok eq_refl) as (_ & _ & _ & Hempty).
    split_and!; simpl; [done | done | | done | by rewrite lookup_empty].
    intros ref _. rewrite (Hempty eq_refl). by rewrite !lookup_empty.
Qed.

End NestedFacts.

(* ===================================================================== *)
(* The facts on the sample host                                           *)
(* ===================================================================== *)

Lemma sample_returns_cleanup f :
  f = 0 ∨ f = 4 → returns_cleanup Sample.host f.
Proof.
  intros Hf v w. exists (S (user w)), (mkWorld (cells w) (S (user w))).
  split; [by destruct Hf as [-> | ->] |]. intros w'. by exists w'.
Qed.

Lemma sample_no_cleanup f :
  f ≠ 0 → f ≠ 2 → f ≠ 3 → f ≠ 4 → f ≠ 7 → no_cleanup Sample.host f.
Proof.
  intros H0 H2 H3 H4 H7 arg w. simpl. unfold Sample.sample_fn.
  do 9 (destruct f as [|f]; [by eauto|]). by eauto.
Qed.


(** C1: on the sample host let A be the callback 0, which returns a
    cleanup function, and B the callback 7, which returns no function but
    a value that is truthy, as el => (x = el) does.  The merged ref of
    [A; B] called with 5 calls A(5) and B(5) and returns, and line 27 has
    stored what B returned.  Called with null afterwards it calls the
    function A returned and then, at line 33, calls the value stored for
    B: it throws the TypeError of that call; B is not called with null,
    and cleanupMap is not cleared. *)
Theorem mixed_pair_throws_on_truthy_result :
  returns_cleanup Sample.host 0 ∧
  (∀ arg w, fn_body Sample.host 7 arg w = (Ok (JOther true), w)) ∧
  mergeRefs Sample.host [RefFn 0; RefFn 7] (Some 5) Sample.s0 =
    (Ok tt,
     mkState (<[RefFn 7 := JOther true]> (<[RefFn 0 := JFun 1]> ∅))
       (mkWorld ∅ 1)
       [EvCall 0 (Some 5) (Ok (JFun 1));
        EvCall 7 (Some 5) (Ok (JOther true))]) ∧
  mergeRefs Sample.host [RefFn 0; RefFn 7] None
      (mergeRefs Sample.host [RefFn 0; RefFn 7] (Some 5) Sample.s0).2 =
    (Throw (type_error Sample.host),
     mkState (<[RefFn 7 := JOther true]> (<[RefFn 0 := JFun 1]> ∅))
       (mkWorld ∅ 1)
       [EvCall 0 (Some 5) (Ok (JFun 1));
        EvCall 7 (Some 5) (Ok (JOther true));
        EvCleanup 1 (Ok tt)]).
Proof.
  split_and!; [|done..].
  intros v w. exists (S (user w)), (mkWorld (cells w) (S (user w))).
  split; [done|]. intros w'. by exists w'.
Qed.

(** C3: on the sample host none of the callbacks 1, 7, 1 returns a
    function: 1 returns undefined and 7 a value that is truthy, as
    node => seen.push(node) does.  The merged ref of the three called with
    5 calls each of them once with 5 and returns.  Called with null
    afterwards it calls the first with null and then throws the TypeError
    of line 33: the callback 7 and the last callback are not called with
    null, and cleanupMap is not cleared. *)
Theorem legacy_callbacks_throw_on_truthy_result :
  (∀ f, f ∈ [1; 7; 1] → ∀ arg w,
     ∃ r, fn_body Sample.host f arg w = (Ok r, w) ∧ ∀ c, r ≠ JFun c) ∧
  mergeRefs Sample.host (RefFn <$> [1; 7; 1]) (Some 5) Sample.s0 =
    (Ok tt,
     mkState (<[RefFn 7 := JOther true]> (<[RefFn 1 := JNull]> ∅))
       Sample.w0
       [EvCall 1 (Some 5) (Ok JUndefined);
        EvCall 7 (Some 5) (Ok (JOther true));
        EvCall 1 (Some 5) (Ok JUndefined)]) ∧
  mergeRefs Sample.host (RefFn <$> [1; 7; 1]) None
      (mergeRefs Sample.host (RefFn <$> [1; 7; 1]) (Some 5) Sample.s0).2 =
    (Throw (type_error Sample.host),
     mkState (<[RefFn 7 := JOther true]> (<[RefFn 1 := JNull]> ∅))
       Sample.w0
       [EvCall 1 (Some 5) (Ok JUndefined);
        EvCall 7 (Some 5) (Ok (JOther true));
        EvCall 1 (Some 5) (Ok JUndefined);
        EvCall 1 None (Ok JUndefined)]).
Proof.
  split_and!; [|done..].
  intros f Hf arg w.
  repeat (apply elem_of_cons in Hf as [->|Hf]); [by eexists..|].
  by apply elem_of_nil in Hf.
Qed.

(** C9: on the sample host the merged ref of the one callback 7, which
    returns a value that is truthy and not a function, called with 5 and
    then with null: the second call throws, although every call of a
    callers' function has returned and none is made by this call.  What it
    throws is the TypeError of the call on line 33, raised by the function
    mergeRefs returned itself. *)
Theorem detach_throws_of_its_own :
  mergeRefs Sample.host [RefFn 7] (Some 5) Sample.s0 =
    (Ok tt,
     mkState (<[RefFn 7 := JOther true]> ∅) Sample.w0
       [EvCall 7 (Some 5) (Ok (JOther true))]) ∧
  mergeRefs Sample.host [RefFn 7] None
      (mergeRefs Sample.host [RefFn 7] (Some 5) Sample.s0).2 =
    (Throw (type_error Sample.host),
     (mergeRefs Sample.host [RefFn 7] (Some 5) Sample.s0).2) ∧
  Forall event_returned
    (trace (mergeRefs Sample.host [RefFn 7] None
              (mergeRefs Sample.host [RefFn 7] (Some 5) Sample.s0).2).2).
Proof.
  split_and!; [done | done |]. by repeat constructor.
Qed.

Lemma mixed_pair_witness :
  ∃ c r s1,
    mergeRefs Sample.host [RefFn 0; RefFn 1] (Some 5) Sample.s0 = (Ok tt, s1) ∧
    trace s1 =
      trace Sample.s0 ++
        [EvCall 0 (Some 5) (Ok (JFun c)); EvCall 1 (Some 5) (Ok r)] ∧
    ∀ w, ∃ r' s2,
      mergeRefs Sample.host [RefFn 0; RefFn 1] None
        (mkState (cleanupMap s1) w (trace s1)) = (Ok tt, s2) ∧
      trace s2 = trace s1 ++ [EvCleanup c (Ok tt); EvCall 1 None (Ok r')].
Proof.
  apply (mixed_pair Sample.host 0 1 5 Sample.s0).
  - apply sample_returns_cleanup. by left.
  - by apply sample_no_cleanup.
Defined.

Lemma cleanup_callbacks_witness :
  cleanup_per_occurrence Sample.host [0; 4] 5 Sample.s0.
Proof.
  apply (cleanup_callbacks Sample.host [0; 4] 5 Sample.s0).
  - compute_done.
  - repeat constructor; apply sample_returns_cleanup; auto.
Defined.

(* The same callback twice: the attach captures the closures 1 and 2, the
   second replaces the first under the one key, and the detach calls the
   closure 2 twice and the closure 1 never. *)
Lemma per_occurrence_fails_on_repeated_callback :
  Forall (returns_cleanup Sample.host) [0; 0] ∧
  trace (mergeRefs Sample.host [RefFn 0; RefFn 0] None
           (mergeRefs Sample.host [RefFn 0; RefFn 0] (Some 5) Sample.s0).2).2
    = [EvCall 0 (Some 5) (Ok (JFun 1)); EvCall 0 (Some 5) (Ok (JFun 2));
       EvCleanup 2 (Ok tt); EvCleanup 2 (Ok tt)] ∧
  ¬ cleanup_per_occurrence Sample.host [0; 0] 5 Sample.s0.
Proof.
  split_and!.
  - repeat constructor; apply sample_returns_cleanup; auto.
  - by vm_compute.
  - intros (cs & s1 & Hrun & Hlen & Htrace & Hdetach).
    vm_compute in Hrun. injection Hrun as <-.
    destruct cs as [|c1 [|c2 [|c3 cs]]]; try discriminate.
    vm_compute in Htrace. injection Htrace as <- <-.
    destruct (Hdetach Sample.w0) as (s2 & Hrun2 & Htrace2).
    vm_compute in Hrun2. injection Hrun2 as <-.
    vm_compute in Htrace2. discriminate.
Qed.

Lemma legacy_callbacks_witness :
  ∃ s1 evs1,
    mergeRefs Sample.host (RefFn <$> [1; 5; 1]) (Some 5) Sample.s0
      = (Ok tt, s1) ∧
    trace s1 = trace Sample.s0 ++ evs1 ∧
    Forall2 (λ f ev, ∃ r, ev = EvCall f (Some 5) (Ok r)) [1; 5; 1] evs1 ∧
    ∀ w, ∃ s2 evs2,
      mergeRefs Sample.host (RefFn <$> [1; 5; 1]) None
        (mkState (cleanupMap s1) w (trace s1)) = (Ok tt, s2) ∧
      trace s2 = trace s1 ++ evs2 ∧
      Forall2 (λ f ev, ∃ r, ev = EvCall f None (Ok r)) [1; 5; 1] evs2.
Proof.
  apply (legacy_callbacks Sample.host [1; 5; 1] 5 Sample.s0).
  repeat constructor; by apply sample_no_cleanup.
Defined.

Lemma assignRef_contract_witness :
  assignRef Sample.host RefNull (Some 5) Sample.s0
    = (Ok JUndefined, Sample.s0) ∧
  assignRef Sample.host (RefFn 0) (Some 5) Sample.s0
    = (Ok (JFun 1),
       mkState ∅ (mkWorld ∅ 1) [EvCall 0 (Some 5) (Ok (JFun 1))]) ∧
  assignRef Sample.host (RefFn 2) None Sample.s0
    = (Throw 7, mkState ∅ (mkWorld ∅ 0) [EvCall 2 None (Throw 7)]) ∧
  assignRef Sample.host (RefObj 4) (Some 5) Sample.s0
    = (Ok JUndefined, mkState ∅ (mkWorld (<[4 := Some 5]> ∅) 0) []).
Proof.
  destruct (assignRef_contract Sample.host) as (Habsent & Hfn & Hobj).
  split_and!.
  - by apply Habsent.
  - by apply (Hfn 0 (Some 5) Sample.s0).
  - by apply (Hfn 2 None Sample.s0).
  - apply Hobj.
Defined.

Lemma attach_stores_every_result_witness :
  mergeRefs Sample.host ([RefObj 4] ++ [RefFn 0]) (Some 5) Sample.s0 =
    (Ok tt,
     mkState (<[RefFn 0 := JFun 1]> (<[RefObj 4 := JNull]> ∅))
       (mkWorld (<[4 := Some 5]> ∅) 1)
       [EvCall 0 (Some 5) (Ok (JFun 1))]) ∧
  ∃ x, cleanupMap Sample.attached !! RefUndefined = Some x ∧ x ≠ JUndefined.
Proof.
  split.
  - exact (proj1 (proj2 (attach_stores_every_result Sample.host
      [RefObj 4] (RefFn 0) [RefFn 1; RefUndefined] 5 Sample.s0))
      (mkState (<[RefObj 4 := JNull]> ∅) (mkWorld (<[4 := Some 5]> ∅) 0) [])
      (JFun 1)
      (mkState (<[RefObj 4 := JNull]> ∅) (mkWorld (<[4 := Some 5]> ∅) 1)
         [EvCall 0 (Some 5) (Ok (JFun 1))])
      eq_refl eq_refl).
  - apply (proj2 (proj2 (attach_stores_every_result Sample.host
      [RefObj 4; RefFn 0; RefFn 1] RefUndefined [] 5 Sample.s0))).
    by vm_compute.
Defined.

Lemma registry_cycle_witness :
  dom (cleanupMap Sample.attached) = list_to_set Sample.refs4 ∧
  size (cleanupMap Sample.attached) = 4 ∧
  cleanupMap Sample.detached = new_cleanupMap ∧
  Sample.detached
    = fresh (world Sample.detached) (trace Sample.detached).
Proof.
  destruct (registry_cycle Sample.host Sample.refs4 5 Sample.w0 []
              Sample.attached (world Sample.attached) Sample.detached)
    as (Hdom & Hsize & _ & _ & Hempty & Hfresh & _);
    [by vm_compute | by vm_compute | done].
Defined.


Lemma absent_refs_witness :
  (mergeRefs Sample.host Sample.refs4 (Some 5) Sample.s0).1 =
    (mergeRefs Sample.host [RefObj 4; RefFn 0; RefFn 1] (Some 5) Sample.s0).1 ∧
  same_but_absent
    (mergeRefs Sample.host Sample.refs4 (Some 5) Sample.s0).2
    (mergeRefs Sample.host [RefObj 4; RefFn 0; RefFn 1] (Some 5) Sample.s0).2 ∧
  cleanupMap Sample.attached !! RefUndefined = Some JNull.
Proof.
  destruct (absent_refs Sample.host Sample.refs4 (Some 5) Sample.s0
              (reach_new _ _ _ _)) as (Hout & Hsame & _ & Hkey).
  split_and!; [exact Hout | exact Hsame |].
  apply (Hkey 5); [done | by vm_compute | compute_done | done].
Defined.

(* An unset ref in the list: after the attach, undefined is a key of
   cleanupMap. *)
Lemma absent_ref_is_a_key :
  reachable Sample.host [RefUndefined]
    (mergeRefs Sample.host [RefUndefined] (Some 5) Sample.s0).2 ∧
  cleanupMap (mergeRefs Sample.host [RefUndefined] (Some 5) Sample.s0).2
    !! RefUndefined = Some JNull ∧
  ¬ absent_never_keys Sample.host [RefUndefined].
Proof.
  assert (reachable Sample.host [RefUndefined]
            (mergeRefs Sample.host [RefUndefined] (Some 5) Sample.s0).2)
    as Hreach by apply reach_call, reach_new.
  split_and!; [done | by vm_compute |].
  intros Hnever. specialize (Hnever _ Hreach RefUndefined eq_refl).
  vm_compute in Hnever. discriminate.
Qed.

Lemma errors_propagate_witness :
  mergeRefs Sample.host [RefFn 1; RefFn 2; RefFn 0] (Some 5) Sample.s0 =
    (Throw 7,
     mkState (<[RefFn 1 := JNull]> ∅) Sample.w0
       [EvCall 1 (Some 5) (Ok JUndefined); EvCall 2 (Some 5) (Throw 7)]) ∧
  mergeRefs Sample.host [RefFn 1; RefFn 3; RefFn 1] None
      (mkState (<[RefFn 3 := JFun 0]> (<[RefFn 1 := JNull]> ∅)) Sample.w0 []) =
    (Throw 9,
     mkState (<[RefFn 3 := JFun 0]> (<[RefFn 1 := JNull]> ∅)) Sample.w0
       [EvCall 1 None (Ok JUndefined); EvCleanup 0 (Throw 9)]) ∧
  mergeRefs Sample.host [RefFn 1; RefFn 7; RefFn 1] None
      (mkState (<[RefFn 7 := JOther true]> (<[RefFn 1 := JNull]> ∅))
         Sample.w0 []) =
    (Throw 13,
     mkState (<[RefFn 7 := JOther true]> (<[RefFn 1 := JNull]> ∅)) Sample.w0
       [EvCall 1 None (Ok JUndefined)]).
Proof.
  split_and!.
  - apply (errors_propagate Sample.host).
    exists [RefFn 1], (RefFn 2), [RefFn 0],
      (mkState (<[RefFn 1 := JNull]> ∅) Sample.w0
         [EvCall 1 (Some 5) (Ok JUndefined)]).
    split_and!; [done | done |]. left. by exists 2.
  - apply (errors_propagate Sample.host).
    exists [RefFn 1], (RefFn 3), [RefFn 1],
      (mkState (<[RefFn 3 := JFun 0]> (<[RefFn 1 := JNull]> ∅)) Sample.w0
         [EvCall 1 None (Ok JUndefined)]).
    split_and!; [done | done |]. right. left. by exists 0.
  - apply (errors_propagate Sample.host).
    exists [RefFn 1], (RefFn 7), [RefFn 1],
      (mkState (<[RefFn 7 := JOther true]> (<[RefFn 1 := JNull]> ∅))
         Sample.w0 [EvCall 1 None (Ok JUndefined)]).
    split_and!; [done | done |]. right. right. by split_and!.
Defined.

Lemma detach_without_entry_witness :
  ∃ s' evs,
    mergeRefs Sample.host Sample.refs4 None Sample.s0 = (Ok tt, s') ∧
    trace s' = trace Sample.s0 ++ evs ∧
    Forall2 (λ f ev, ∃ r, ev = EvCall f None (Ok r))
      (callbacks_of Sample.refs4) evs ∧
    cleanupMap s' = ∅ ∧
    ∀ o, RefObj o ∈ Sample.refs4 → leaves_cell Sample.host Sample.refs4 o →
         cells (world s') !! o = Some None.
Proof.
  apply (proj2 (detach_without_entry Sample.host) Sample.refs4 Sample.s0).
  - by intros ref _.
  - intros f w Hf. unfold Sample.refs4 in Hf.
    repeat (apply elem_of_cons in Hf as [[=]|Hf]); subst; simpl; eauto.
    by apply elem_of_nil in Hf.
Defined.

Lemma throwing_detach_keeps_registry_witness :
  cleanupMap
    (mergeRefs Sample.host [RefFn 1; RefFn 3] None
       (mergeRefs Sample.host [RefFn 1; RefFn 3] (Some 5) Sample.s0).2).2
  = cleanupMap (mergeRefs Sample.host [RefFn 1; RefFn 3] (Some 5) Sample.s0).2.
Proof.
  apply (throwing_detach_keeps_registry Sample.host [RefFn 1; RefFn 3] _ 9).
  by vm_compute.
Defined.

Lemma detach_calls_witness :
  ∃ fs evs,
    fs `prefix_of` callbacks_of Sample.refs_values ∧
    trace (mergeRefs Sample.host Sample.refs_values None
             Sample.attached_values).2
      = trace Sample.attached_values ++ evs ∧
    Forall2 (detach_call (cleanupMap Sample.attached_values)) fs evs ∧
    detach_ends_as Sample.host (cleanupMap Sample.attached_values)
      (callbacks_of Sample.refs_values)
      (mergeRefs Sample.host Sample.refs_values None
         Sample.attached_values).1 fs evs.
Proof.
  apply (detach_calls Sample.host Sample.refs_values Sample.attached_values).
  apply (reachable_only_values Sample.host Sample.refs_values).
  apply reach_call, reach_new.
Defined.

Lemma repeated_callback_last_capture_witness :
  ∃ cs s1,
    mergeRefs Sample.host (RefFn <$> [0; 4; 0]) (Some 5) Sample.s0
      = (Ok tt, s1) ∧
    length cs = length [0; 4; 0] ∧
    trace s1 =
      trace Sample.s0 ++
        zip_with (λ f c, EvCall f (Some 5) (Ok (JFun c))) [0; 4; 0] cs ∧
    (∀ f, f ∈ [0; 4; 0] →
       cleanupMap s1 !! RefFn f = JFun <$> last_capture [0; 4; 0] cs f) ∧
    ∀ w, ∃ s2 cs',
      mergeRefs Sample.host (RefFn <$> [0; 4; 0]) None
        (mkState (cleanupMap s1) w (trace s1)) = (Ok tt, s2) ∧
      Forall2 (λ f c', last_capture [0; 4; 0] cs f = Some c') [0; 4; 0] cs' ∧
      trace s2 = trace s1 ++ ((λ c', EvCleanup c' (Ok tt)) <$> cs').
Proof.
  apply (repeated_callback_last_capture Sample.host [0; 4; 0] 5 Sample.s0).
  repeat constructor; apply sample_returns_cleanup; auto.
Defined.

Lemma registry_invariant_witness :
  RefFn 7 ∈ Sample.refs_values ∧ JOther true ≠ @JUndefined nat ∧
  (JOther true ≠ @JNull nat →
   ∃ f v, RefFn 7 = RefFn f ∧
          EvCall f (Some v) (Ok (JOther true))
            ∈ trace Sample.attached_values).
Proof.
  apply (registry_invariant Sample.host Sample.refs_values
           Sample.attached_values).
  - apply reach_call, reach_new.
  - by vm_compute.
Defined.

Lemma attach_forgets_registry_witness :
  cleanupMap Sample.stale !! RefFn 0 = Some (JFun 1) ∧
  mergeRefs Sample.host Sample.refs_throwing (Some 6) Sample.stale =
    mergeRefs Sample.host Sample.refs_throwing (Some 6)
      (fresh (world Sample.stale) (trace Sample.stale)).
Proof.
  split; [by vm_compute|].
  apply (attach_forgets_registry Sample.host Sample.refs_throwing 6
           Sample.stale).
  - do 2 apply reach_call. apply reach_new.
  - by vm_compute.
Defined.

Lemma nested_merge_flattens_witness :
  (mergeRefs SampleNested.host [RefFn 1; RefFn 10; RefFn 4] (Some 5)
     SampleNested.t0).1 =
    (mergeRefs Sample.host [RefFn 1; RefFn 0; RefObj 4; RefFn 4] (Some 5)
       Sample.s0).1 ∧
  world (inner_state (world
    (mergeRefs SampleNested.host [RefFn 1; RefFn 10; RefFn 4] (Some 5)
       SampleNested.t0).2)) =
    world (mergeRefs Sample.host [RefFn 1; RefFn 0; RefObj 4; RefFn 4]
             (Some 5) Sample.s0).2 ∧
  trace (inner_state (world
    (mergeRefs SampleNested.host [RefFn 1; RefFn 10; RefFn 4] (Some 5)
       SampleNested.t0).2)) =
    [EvCall 1 (Some 5) (Ok JUndefined); EvCall 0 (Some 5) (Ok (JFun 1));
     EvCall 4 (Some 5) (Ok (JFun 2))].
Proof.
  destruct (nested_merge_flattens Sample.host SampleNested.merged
              SampleNested.inner [RefFn 1] [RefFn 4] (Some 5)
              SampleNested.t0 Sample.s0)
    as (Hout & Hworld & Htrace & _).
  - compute_done.
  - intros ref Href. unfold SampleNested.inner in Href.
    repeat (apply elem_of_cons in Href as [->|Href]); [compute_done..|].
    by apply elem_of_nil in Href.
  - by split_and!.
  - split_and!; [exact Hout | exact Hworld |].
    etrans; [exact Htrace|]. by vm_compute.
Defined.

Lemma cleanup_not_called_again_witness :
  ∃ fs evs,
    fs `prefix_of` callbacks_of Sample.refs4 ∧
    trace (mergeRefs Sample.host Sample.refs4 None
             (mkState (cleanupMap Sample.detached) Sample.w0
                (trace Sample.detached))).2
      = trace Sample.detached ++ evs ∧
    Forall2 (λ f ev, ∃ out, ev = EvCall f None out) fs evs ∧
    calls_end_as
      (mergeRefs Sample.host Sample.refs4 None
         (mkState (cleanupMap Sample.detached) Sample.w0
            (trace Sample.detached))).1 evs.
Proof.
  apply (cleanup_not_called_again Sample.host Sample.refs4 Sample.attached).
  by vm_compute.
Defined.
